(** * Telegram relay plugin (plugins/telegram.py): model and properties

    A shallow embedding of the relay plugin: the nickname algorithm, the
    table of fake IRC users, the bridge map, the two message handlers, the
    idle sweep and the teardown.

    - Python strings are lists of code points and Python ints are [Z].
    - The module-level dicts [telegram_users] and [bridge_map] are part of
      an explicit world that every handler threads.  [telegram_users] is an
      association list in insertion order, since the teardown and the sweep
      iterate over it; [bridge_map] is only looked up and is a [gmap].
    - The calls made on the [irc] object and on the Telegram bot are
      recorded in a trace.  [irc.create_user] may return a handle or raise;
      its outcome and the readings of [time.time()] are parameters.  Time
      stamps are exact numbers of seconds.
    - A handler runs from its first line to its last without another one
      in between; [setup] and the start of the bot are not modelled. *)

From Stdlib Require Import ZArith NArith Ascii Lia.
From stdpp Require Import base option list strings gmap pretty.

Local Open Scope Z_scope.

(** ** Python strings *)

Module Py.

(** A [str] is a sequence of Unicode code points. *)
Abbreviation pystr := (list N) (only parsing).

Definition ord (a : ascii) : N := N_of_ascii a.

(** A literal of the source, read code point by code point. *)
Definition lit (s : string) : pystr := ord <$> String.list_ascii_of_string s.

(** [str(n)] for an int: decimal digits, a leading minus for negatives. *)
Definition str_int (n : Z) : pystr := lit (pretty n).

(** Truthiness of an optional string: [None] and [''] are falsy. *)
Definition truthy (o : option pystr) : bool :=
  match o with
  | Some (_ :: _) => true
  | _ => false
  end.

(** [x or y] on strings. *)
Definition or_str (x y : pystr) : pystr :=
  match x with
  | [] => y
  | _ :: _ => x
  end.

(** [o or ''] for an optional string. *)
Definition or_empty (o : option pystr) : pystr := or_str (default [] o) [].

(** [s[:n]]: the first [n] items, and for a negative [n] all but the last
    [-n] items. *)
Definition slice_to {A} (n : Z) (s : list A) : list A :=
  if 0 <=? n then take (Z.to_nat n) s
  else take (length s - Z.to_nat (- n))%nat s.

Definition in_range (lo hi : ascii) (c : N) : bool :=
  (N.leb (ord lo) c && N.leb c (ord hi))%bool.

Definition is_char (a : ascii) (c : N) : bool := N.eqb c (ord a).

(** [\s] on a [str] pattern, and what [str.strip] removes: the code points
    for which [str.isspace] holds. *)
Definition is_space (c : N) : bool :=
  ((N.leb 9 c && N.leb c 13) || (N.leb 28 c && N.leb c 32)
   || N.eqb c 133 || N.eqb c 160 || N.eqb c 5760
   || (N.leb 8192 c && N.leb c 8202)
   || N.eqb c 8232 || N.eqb c 8233 || N.eqb c 8239 || N.eqb c 8287
   || N.eqb c 12288)%bool.

(** [re.sub(cls+, repl, s)]: every maximal run of characters of the class
    is replaced by [repl]; [in_run] tells that the previous character
    belonged to a run already replaced. *)
Fixpoint re_sub_plus (cls : N → bool) (repl : pystr) (in_run : bool)
    (s : pystr) : pystr :=
  match s with
  | [] => []
  | c :: s' =>
      if cls c
      then (if in_run then [] else repl) ++ re_sub_plus cls repl true s'
      else c :: re_sub_plus cls repl false s'
  end.

(** [re.sub(cls, repl, s)] for a class matching one character. *)
Fixpoint re_sub_one (cls : N → bool) (repl : pystr) (s : pystr) : pystr :=
  match s with
  | [] => []
  | c :: s' => (if cls c then repl else [c]) ++ re_sub_one cls repl s'
  end.

(** [s.strip()]. *)
Fixpoint lstrip (s : pystr) : pystr :=
  match s with
  | [] => []
  | c :: s' => if is_space c then lstrip s' else s
  end.

Definition strip (s : pystr) : pystr := reverse (lstrip (reverse (lstrip s))).

End Py.

Import Py.

(** ** Configuration and remote profiles *)

(** [chat_id] of a bridge comes from the configuration file as written
    there: an int or a string.  [str()] is applied before it is used as a
    key. *)
Inductive ChatId :=
  | ChatInt (n : Z)
  | ChatStr (s : pystr).

#[global] Instance ChatId_eq_dec : EqDecision ChatId.
Proof. solve_decision. Defined.

Definition str_chat_id (c : ChatId) : pystr :=
  match c with
  | ChatInt n => str_int n
  | ChatStr s => s
  end.

(** One entry of [cfg["bridges"]]. *)
Record Bridge := {
  telegram_chat_id : ChatId;   (* bridge["telegram"]["chat_id"] *)
  irc_channel : pystr          (* bridge["irc"]["channel"] *)
}.

(** [irc.telegram_cfg], with the keys the plugin reads. *)
Record Config := {
  identity_ident : pystr;
  identity_host : pystr;
  identity_suffix : pystr;
  limits_nick_max : Z;
  limits_message_max : Z;
  cleanup_idle_timeout : Z;
  bridges : list Bridge
}.

(** [msg.from_user]. *)
Record TgUser := {
  id : Z;
  username : option pystr;
  first_name : option pystr;
  last_name : option pystr
}.

(** ** Nicknames *)

(** The class [A-Za-z0-9_\-\[\]\\`^{}] of the second substitution. *)
Definition irc_name_char (c : N) : bool :=
  (in_range "A" "Z" c || in_range "a" "z" c || in_range "0" "9" c
   || is_char "_" c || is_char "-" c || is_char "[" c || is_char "]" c
   || is_char "\" c || is_char "`" c || is_char "^" c
   || is_char "{" c || is_char "}" c)%bool.

Definition sanitize_irc_name (name : pystr) : pystr :=
  let name := re_sub_plus is_space [] false name in
  let name := re_sub_one (λ c, negb (irc_name_char c)) [] name in
  or_str name (lit "TGUser").

(** The base name before it is sanitized (lines 155-158). *)
Definition nick_base (tg_user : TgUser) : pystr :=
  if truthy (username tg_user)
  then default [] (username tg_user)
  else or_str (or_empty (first_name tg_user) ++ or_empty (last_name tg_user))
              (lit "tg" ++ str_int (id tg_user)).

Definition build_nick_from_telegram (tg_user : TgUser) (cfg : Config) : pystr :=
  let base := sanitize_irc_name (nick_base tg_user) in
  let nick := base ++ lit "/" ++ identity_suffix cfg in
  slice_to (limits_nick_max cfg) nick.

Definition build_realname (tg_user : TgUser) : pystr :=
  if truthy (username tg_user)
  then lit "Telegram @" ++ default [] (username tg_user)
  else strip (lit "Telegram " ++ or_empty (first_name tg_user)
              ++ lit " " ++ or_empty (last_name tg_user)).


(** ** Results, the user table and the trace of collaborator calls *)

(** The local handle that [irc.create_user] returns. *)
Definition Handle := nat.

Inductive PyExn :=
  | KeyError (key : Z)
  | AttributeError
  | IrcError (code : nat).      (* whatever [irc.create_user] raises *)

Inductive Result (A : Type) :=
  | Ok (a : A)
  | Raise (e : PyExn).
Arguments Ok {A} a.
Arguments Raise {A} e.

(** A value of [telegram_users]: [{ "user": ..., "last_seen": ... }]. *)
Record Entry := {
  user : Handle;
  last_seen : Z
}.

(** A dict with int keys keeps its items in insertion order; assigning to a
    key that is present keeps its position. *)
Module Dict.

Fixpoint get {V} (k : Z) (d : list (Z * V)) : option V :=
  match d with
  | [] => None
  | (k', v) :: d' => if decide (k = k') then Some v else get k d'
  end.

Fixpoint set {V} (k : Z) (v : V) (d : list (Z * V)) : list (Z * V) :=
  match d with
  | [] => [(k, v)]
  | (k', v') :: d' =>
      if decide (k = k') then (k, v) :: d' else (k', v') :: set k v d'
  end.

Fixpoint del {V} (k : Z) (d : list (Z * V)) : list (Z * V) :=
  match d with
  | [] => []
  | (k', v') :: d' => if decide (k = k') then d' else (k', v') :: del k d'
  end.

Definition keys {V} (d : list (Z * V)) : list Z := d.*1.
Definition values {V} (d : list (Z * V)) : list V := d.*2.

(** What every dict satisfies: a key occurs once. *)
Definition wf {V} (d : list (Z * V)) : Prop := NoDup (keys d).

End Dict.

(** The calls the plugin makes on its collaborators, as they are made. *)
Inductive Call :=
  | LogInfo (line : pystr)                                   (* irc.log.info *)
  | CreateUser (nick ident host realname : pystr) (res : Result Handle)
  | Join (who : Handle) (channel : pystr)                    (* irc.join *)
  | SendPrivmsg (channel text : pystr) (source : Handle)     (* irc.send_privmsg *)
  | Quit (who : Handle) (reason : pystr)                     (* irc.quit *)
  | SendMessage (chat : ChatId) (text : pystr).    (* bot.send_message, called *)

(** The module's globals, the calls made so far (oldest first) and the
    number of times [time.time()] was read. *)
Record World := {
  telegram_users : list (Z * Entry);
  bridge_map : gmap pystr Bridge;
  calls : list Call;
  clock_reads : nat
}.

Definition with_users (t : list (Z * Entry)) (w : World) : World :=
  {| telegram_users := t; bridge_map := bridge_map w;
     calls := calls w; clock_reads := clock_reads w |}.

Definition with_bridge_map (m : gmap pystr Bridge) (w : World) : World :=
  {| telegram_users := telegram_users w; bridge_map := m;
     calls := calls w; clock_reads := clock_reads w |}.

Definition with_call (c : Call) (w : World) : World :=
  {| telegram_users := telegram_users w; bridge_map := bridge_map w;
     calls := calls w ++ [c]; clock_reads := clock_reads w |}.

Definition with_tick (w : World) : World :=
  {| telegram_users := telegram_users w; bridge_map := bridge_map w;
     calls := calls w; clock_reads := S (clock_reads w) |}.

(** ** The monad of the handlers: state, and an exception that keeps the
    effects made before it was raised *)

Definition M (A : Type) : Type := World → Result A * World.

Definition ret {A} (a : A) : M A := λ w, (Ok a, w).

Definition raise {A} (e : PyExn) : M A := λ w, (Raise e, w).

Definition bind {A B} (m : M A) (k : A → M B) : M B := λ w,
  match m w with
  | (Ok a, w') => k a w'
  | (Raise e, w') => (Raise e, w')
  end.

Definition get_world : M World := λ w, (Ok w, w).

Definition modify (f : World → World) : M unit := λ w, (Ok (), f w).

(** The notations [x ← m; k] and [m;; k] are those of stdpp. *)
#[global] Instance M_ret : MRet M := @ret.
#[global] Instance M_bind : MBind M := λ A B k m, bind m k.

(** [for x in l: body(x)]: the first exception ends the loop. *)
Fixpoint for_each {A} (l : list A) (body : A → M unit) : M unit :=
  match l with
  | [] => ret ()
  | x :: l' => body x;; for_each l' body
  end.

(** [d[k]] on [telegram_users]. *)
Definition users_getitem (k : Z) : M Entry :=
  w ← get_world;
  match Dict.get k (telegram_users w) with
  | Some e => ret e
  | None => raise (KeyError k)
  end.

(** [del telegram_users[k]]. *)
Definition users_delitem (k : Z) : M unit :=
  _ ← users_getitem k;
  modify (λ w, with_users (Dict.del k (telegram_users w)) w).

(** [telegram_users[k] = e]. *)
Definition users_setitem (k : Z) (e : Entry) : M unit :=
  modify (λ w, with_users (Dict.set k e (telegram_users w)) w).

Definition emit (c : Call) : M unit := modify (with_call c).

(** Unfolding the monad, and the updates of the world. *)
Ltac unfold_m :=
  unfold mbind, M_bind, bind, mret, M_ret, ret, raise, get_world, modify.

Ltac unfold_w :=
  unfold with_call, with_users, with_tick, with_bridge_map; simpl.

(** ** Observations on a run *)

(** The calls made between a world and a later one. *)
Definition new_calls (w w' : World) : list Call :=
  drop (length (calls w)) (calls w').

(** The posts to the local network among some calls. *)
Definition posts (cs : list Call) : list (pystr * pystr * Handle) :=
  omap (λ c, match c with
             | SendPrivmsg ch t h => Some (ch, t, h)
             | _ => None
             end) cs.

(** The calls of [bot.send_message] among some calls, each with its chat
    and its text. *)
Definition sends (cs : list Call) : list (ChatId * pystr) :=
  omap (λ c, match c with
             | SendMessage chat t => Some (chat, t)
             | _ => None
             end) cs.

(** The handles of the users that were created among some calls. *)
Definition created (cs : list Call) : list Handle :=
  omap (λ c, match c with
             | CreateUser _ _ _ _ (Ok h) => Some h
             | _ => None
             end) cs.


(** The departures among some calls. *)
Definition quits (cs : list Call) : list (Handle * pystr) :=
  omap (λ c, match c with
             | Quit h r => Some (h, r)
             | _ => None
             end) cs.

(** The lines logged among some calls. *)
Definition logged (cs : list Call) : list pystr :=
  omap (λ c, match c with
             | LogInfo l => Some l
             | _ => None
             end) cs.

(** ** The handlers *)

(** [bridge_map[str(bridge["telegram"]["chat_id"])] = bridge]. *)
Definition add_bridge (m : gmap pystr Bridge) (b : Bridge) : gmap pystr Bridge :=
  <[str_chat_id (telegram_chat_id b) := b]> m.

(** [update.message], with the attributes the handler reads. *)
Record Message := {
  text : option pystr;
  chat_id : Z;
  from_user : option TgUser
}.

Record Update := {
  message : option Message
}.

(** The [source] of a PRIVMSG hook. *)
Record Source := {
  ident : pystr;
  nick : pystr
}.

Section Plugin.

(** What the collaborators answer.  [clock n] is the value of the [n]-th
    read of [time.time()] (counted from 0), in seconds.  [create_user] is
    the outcome of [irc.create_user] given the calls made before it and its
    arguments: a handle, or an exception.  The other calls on [irc] and on
    the bot return nothing the plugin reads. *)
Variable clock : nat → Z.
Variable create_user : list Call → pystr → pystr → pystr → pystr → Result Handle.

Definition time_time : M Z := λ w, (Ok (clock (clock_reads w)), with_tick w).

Definition irc_create_user (nick ident host realname : pystr) : M Handle := λ w,
  let res := create_user (calls w) nick ident host realname in
  (res, with_call (CreateUser nick ident host realname res) w).

Definition get_or_create_irc_user (cfg : Config) (tg_user : TgUser) : M Handle :=
  let tg_id := id tg_user in
  w ← get_world;
  match Dict.get tg_id (telegram_users w) with
  | Some entry => mret (user entry)
  | None =>
      let nick := build_nick_from_telegram tg_user cfg in
      user ← irc_create_user nick (identity_ident cfg) (identity_host cfg)
                             (build_realname tg_user);
      for_each (bridges cfg) (λ bridge, emit (Join user (irc_channel bridge)));;
      now ← time_time;
      users_setitem tg_id {| user := user; last_seen := now |};;
      emit (LogInfo (lit "[telegram] created IRC user: " ++ nick));;
      mret user
  end.

(** [telegram_users[k]["last_seen"] = time.time()]: the right-hand side is
    evaluated first, then the entry is looked up and changed in place. *)
Definition touch_last_seen (k : Z) : M unit :=
  now ← time_time;
  entry ← users_getitem k;
  users_setitem k {| user := user entry; last_seen := now |}.

Definition on_telegram_message (cfg : Config) (update : Update) : M unit :=
  match message update with
  | None => mret ()
  | Some msg =>
      if negb (truthy (text msg)) then mret () else
      let chat_id := str_int (chat_id msg) in
      w ← get_world;
      match bridge_map w !! chat_id with
      | None => mret ()
      | Some bridge =>
          let channel := irc_channel bridge in
          (* [msg.from_user.id] on a message without a sender *)
          tg_user ← match from_user msg with
                    | Some u => mret u
                    | None => raise AttributeError
                    end;
          user ← get_or_create_irc_user cfg tg_user;
          touch_last_seen (id tg_user);;
          let text := slice_to (limits_message_max cfg) (default [] (text msg)) in
          emit (SendPrivmsg channel text user)
      end
  end.

(** [telegram_app] tells whether the attribute [irc.telegram_app] is there:
    [start_telegram_bot] assigns it (line 218) in a thread that [setup]
    starts after it has registered this hook.  Without it the expression
    [irc.telegram_app.bot.send_message] raises before any call.  With it
    the call is made; the handler is a plain function and does not await
    what the call returns, so the trace records the call and nothing about
    a delivery. *)
Definition on_irc_privmsg (telegram_app : bool) (cfg : Config) (source : Source)
    (target message : pystr) : M unit :=
  if decide (ident source = identity_ident cfg) then mret () else
  for_each (bridges cfg) (λ bridge,
    if decide (target = irc_channel bridge) then
      let text := lit "<" ++ nick source ++ lit "> " ++ message in
      if telegram_app
      then emit (SendMessage (telegram_chat_id bridge) text)
      else raise AttributeError
    else mret ()).

Definition teardown : M unit :=
  emit (LogInfo (lit "[telegram] plugin unloaded"));;
  w ← get_world;
  for_each (Dict.values (telegram_users w)) (λ entry,
    emit (Quit (user entry) (lit "Telegram relay shutdown"))).

(** One turn of the loop of [start_cleanup_timer], after its sleep. *)
Definition cleanup_sweep (cfg : Config) : M unit :=
  let timeout := cleanup_idle_timeout cfg in
  now ← time_time;
  w ← get_world;
  for_each (Dict.keys (telegram_users w)) (λ tg_id,
    entry ← users_getitem tg_id;
    if now - last_seen entry >? timeout then
      emit (Quit (user entry) (lit "Telegram idle timeout"));;
      users_delitem tg_id
    else mret ()).

Definition build_bridge_map (cfg : Config) : M unit :=
  for_each (bridges cfg) (λ bridge,
    modify (λ w, with_bridge_map (add_bridge (bridge_map w) bridge) w)).

(** *** Several inbound messages *)

(** The author with which the handler reaches its call of
    [get_or_create_irc_user] (line 86): the message has a text, its chat is
    in [bridge_map] and it has a sender. *)
Definition author (upd : Update) (w : World) : option TgUser :=
  msg ← message upd;
  if truthy (text msg) then
    _ ← bridge_map w !! str_int (chat_id msg); from_user msg
  else None.





End Plugin.

(** ** The rest of the module: the cleanup loop and [setup] *)

(** The channel joins among some calls. *)
Definition joins (cs : list Call) : list (Handle * pystr) :=
  omap (λ c, match c with
             | Join h ch => Some (h, ch)
             | _ => None
             end) cs.

Section Loop.

Variable clock : nat → Z.

(** [turns] turns of the [while True] of [loop] in [start_cleanup_timer].
    The idle timeout is read before the first turn from a configuration
    that does not change; the sleep does nothing the model observes.  An
    exception ends the loop. *)
Fixpoint loop (cfg : Config) (turns : nat) : M unit :=
  match turns with
  | O => mret ()
  | S turns' => cleanup_sweep clock cfg;; loop cfg turns'
  end.

End Loop.

(** [irc.config.get(PLUGIN)] when it is there: the [enabled] key and the
    keys the handlers read.  A missing [cleanup.idle_timeout] reads as 0. *)
Record PluginConfig := {
  enabled : bool;
  settings : Config
}.

(** The targets of the threads that [setup] starts. *)
Inductive Thread :=
  | BotThread          (* target=start_telegram_bot *)
  | CleanupThread.     (* target=loop, in start_cleanup_timer *)

(** What [setup] does to the host besides logging. *)
Inductive HostCall :=
  | AddHook (command : pystr)      (* irc.add_hook(command, on_irc_privmsg) *)
  | StartThread (t : Thread).      (* threading.Thread(...).start() *)

#[global] Instance Thread_eq_dec : EqDecision Thread.
Proof. solve_decision. Defined.

#[global] Instance HostCall_eq_dec : EqDecision HostCall.
Proof. solve_decision. Defined.

(** The world together with the [irc.telegram_cfg] attribute and the calls
    of [setup] on the host, oldest first. *)
Record Host := {
  world : World;
  telegram_cfg : option Config;
  host_calls : list HostCall
}.

Definition setup (config : option PluginConfig) (irc : Host) : Host :=
  match config with
  | Some pc =>
      if enabled pc then
        let cfg := settings pc in
        let w := with_call (LogInfo (lit "[telegram] plugin loaded")) (world irc) in
        let w := (build_bridge_map cfg w).2 in
        {| world := w;
           telegram_cfg := Some cfg;
           host_calls := host_calls irc
             ++ [AddHook (lit "PRIVMSG"); StartThread BotThread]
             ++ (if cleanup_idle_timeout cfg >? 0
                 then [StartThread CleanupThread] else []) |}
      else
        {| world := with_call (LogInfo (lit "[telegram] plugin disabled")) (world irc);
           telegram_cfg := telegram_cfg irc;
           host_calls := host_calls irc |}
  | None =>
      {| world := with_call (LogInfo (lit "[telegram] plugin disabled")) (world irc);
         telegram_cfg := telegram_cfg irc;
         host_calls := host_calls irc |}
  end.

(** ** Sample data *)

Module Sample.

Definition bridge_a : Bridge :=
  {| telegram_chat_id := ChatInt 7; irc_channel := lit "#a" |}.
Definition bridge_b : Bridge :=
  {| telegram_chat_id := ChatInt 8; irc_channel := lit "#b" |}.
(** The chat of [bridge_a] again, for another channel. *)
Definition bridge_a_again : Bridge :=
  {| telegram_chat_id := ChatInt 7; irc_channel := lit "#c" |}.
(** The same chat once more, its id written as a string. *)
Definition bridge_a_quoted : Bridge :=
  {| telegram_chat_id := ChatStr (lit "7"); irc_channel := lit "#d" |}.

Definition cfg_with (bs : list Bridge) : Config :=
  {| identity_ident := lit "tgrelay";
     identity_host := lit "telegram.bridge";
     identity_suffix := lit "tg";
     limits_nick_max := 9;
     limits_message_max := 5;
     cleanup_idle_timeout := 3600;
     bridges := bs |}.

Definition cfg : Config := cfg_with [bridge_a; bridge_b].

Definition alice : TgUser :=
  {| id := 42; username := Some (lit "alice_in_chains");
     first_name := Some (lit "Alice"); last_name := None |}.

Definition message_from (chat : Z) (u : TgUser) (t : string) : Message :=
  {| text := Some (lit t); chat_id := chat; from_user := Some u |}.

Definition update_from (chat : Z) (u : TgUser) (t : string) : Update :=
  {| message := Some (message_from chat u t) |}.

Definition bob : Source := {| ident := lit "bob"; nick := lit "bob" |}.


(** A clock that advances by one second at each read, from 100. *)
Definition ticking (n : nat) : Z := 100 + Z.of_nat n.

(** A network that accepts every user; the handle counts the earlier calls. *)
Definition accepting (cs : list Call) (_ _ _ _ : pystr) : Result Handle :=
  Ok (length cs).



(** A network that rejects every user. *)
Definition rejecting (cs : list Call) (_ _ _ _ : pystr) : Result Handle :=
  Raise (IrcError 433).

(** The module as it is loaded: both dicts empty. *)
Definition loaded : World :=
  {| telegram_users := []; bridge_map := ∅; calls := []; clock_reads := 0 |}.

(** The world once [setup] has built the bridge map of a configuration,
    with a given table of users. *)
Definition world_with (t : list (Z * Entry)) (c : Config) : World :=
  with_users t (build_bridge_map c loaded).2.

End Sample.

(** A computation that leaves [bridge_map] as it is, whatever it returns. *)
Definition keeps_bridge_map {A} (m : M A) : Prop :=
  ∀ w, bridge_map (m w).2 = bridge_map w.

(** The threads and the hook of an enabled [setup]. *)
Definition setup_calls (cfg : Config) : list HostCall :=
  [AddHook (lit "PRIVMSG"); StartThread BotThread]
  ++ (if decide (0 < cleanup_idle_timeout cfg)
      then [StartThread CleanupThread] else []).

(** The host before [setup], and a configuration of the plugin. *)
Module HostSample.

Definition before_setup : Host :=
  {| world := Sample.loaded; telegram_cfg := None; host_calls := [] |}.

Definition plugin (on : bool) : PluginConfig :=
  {| enabled := on; settings := Sample.cfg |}.

(** A clock that reads 3601, then 3602, and so on. *)
Definition late (n : nat) : Z := 3601 + Z.of_nat n.

End HostSample.

(** * Properties *)

(** ** Python strings and nicknames *)

Lemma slice_to_nonneg {A} (n : Z) (s : list A) :
  0 ≤ n → slice_to n s = take (Z.to_nat n) s.
Proof.
  intros Hn. unfold slice_to.
  destruct (Z.leb_spec 0 n); [done | lia].
Qed.

Lemma re_sub_plus_delete (cls : N → bool) (b : bool) (s : pystr) :
  re_sub_plus cls [] b s = List.filter (λ c, negb (cls c)) s.
Proof.
  revert b. induction s as [|c s IH]; intros b; simpl; [done|].
  destruct (cls c); simpl.
  - destruct b; apply IH.
  - f_equal. apply IH.
Qed.

Lemma re_sub_one_delete (cls : N → bool) (s : pystr) :
  re_sub_one cls [] s = List.filter (λ c, negb (cls c)) s.
Proof.
  induction s as [|c s IH]; simpl; [done|].
  destruct (cls c); simpl; by rewrite IH.
Qed.

(** No white space is a character of a nickname. *)
Lemma irc_name_char_not_space (c : N) :
  irc_name_char c = true → is_space c = false.
Proof.
  unfold irc_name_char, is_space, in_range, is_char.
  repeat match goal with
         | |- context [ord ?a] =>
             let v := eval vm_compute in (ord a) in change (ord a) with v
         end.
  intros H. destruct (_ || _)%bool eqn:E in |- *; [exfalso | done].
  repeat (rewrite ?orb_true_iff, ?andb_true_iff, ?N.leb_le, ?N.eqb_eq in H).
  repeat (rewrite ?orb_true_iff, ?andb_true_iff, ?N.leb_le, ?N.eqb_eq in E).
  lia.
Qed.

Lemma or_empty_default (o : option pystr) : or_empty o = default [] o.
Proof. unfold or_empty, or_str. by destruct (default [] o). Qed.

Lemma filter_name_char_no_space (s : pystr) :
  List.filter irc_name_char (List.filter (λ c, negb (is_space c)) s)
  = List.filter irc_name_char s.
Proof.
  induction s as [|c s IH]; simpl; [done|].
  destruct (irc_name_char c) eqn:Hc.
  - rewrite (irc_name_char_not_space c Hc). simpl. by rewrite Hc, IH.
  - destruct (is_space c); simpl; by rewrite ?Hc, IH.
Qed.

(** Sanitizing keeps the characters of the nickname alphabet, in order,
    and nothing else; an empty result becomes the fallback literal. *)
Lemma sanitize_irc_name_filter (name : pystr) :
  sanitize_irc_name name = or_str (List.filter irc_name_char name) (lit "TGUser").
Proof.
  unfold sanitize_irc_name.
  rewrite re_sub_plus_delete, re_sub_one_delete.
  rewrite <- (filter_name_char_no_space name). f_equal.
  apply List.filter_ext. intros c. by rewrite negb_involutive.
Qed.

Lemma or_str_nonempty (x y : pystr) : y ≠ [] → or_str x y ≠ [].
Proof. by destruct x. Qed.

Lemma sanitize_irc_name_nonempty (name : pystr) : sanitize_irc_name name ≠ [].
Proof. by apply or_str_nonempty. Qed.

Lemma nick_base_nonempty (tg_user : TgUser) : nick_base tg_user ≠ [].
Proof.
  unfold nick_base. destruct (username tg_user) as [[|c s]|]; simpl;
    try done; by apply or_str_nonempty.
Qed.

(** C7 (naming fallback).  Without a username the base name is the first
    name followed by the last name with nothing in between; when both are
    empty it is the literal tg followed by the decimal id.  Sanitizing
    removes white space and every character outside the nickname alphabet,
    and yields the literal TGUser when nothing is left, as for a username
    made of emoji only.  Neither the base name nor the sanitized base name
    is ever empty. *)
Theorem naming_fallback_nonempty (tg_user : TgUser) :
  (truthy (username tg_user) = false →
   default [] (first_name tg_user) ++ default [] (last_name tg_user) ≠ [] →
   nick_base tg_user
   = default [] (first_name tg_user) ++ default [] (last_name tg_user))
  ∧ (truthy (username tg_user) = false →
     truthy (first_name tg_user) = false →
     truthy (last_name tg_user) = false →
     nick_base tg_user = lit "tg" ++ str_int (id tg_user))
  ∧ (∀ name : pystr,
       sanitize_irc_name name
       = or_str (List.filter irc_name_char
                   (List.filter (λ c, negb (is_space c)) name))
                (lit "TGUser"))
  ∧ (∀ name : pystr,
       List.filter irc_name_char name = [] →
       sanitize_irc_name name = lit "TGUser")
  ∧ (∀ (name : pystr) (c : N),
       c ∈ sanitize_irc_name name → irc_name_char c = true)
  ∧ (username tg_user = Some [128512; 128512; 128512]%N →
     sanitize_irc_name (nick_base tg_user) = lit "TGUser")
  ∧ nick_base tg_user ≠ []
  ∧ sanitize_irc_name (nick_base tg_user) ≠ [].
Proof.
  repeat split.
  - intros Hu Hne. unfold nick_base. rewrite Hu, !or_empty_default.
    unfold or_str. by destruct (_ ++ _).
  - intros Hu Hf Hl. unfold nick_base. rewrite Hu.
    destruct (first_name tg_user) as [[|? ?]|], (last_name tg_user) as [[|? ?]|];
      done.
  - intros name. by rewrite filter_name_char_no_space, sanitize_irc_name_filter.
  - intros name Hnone. by rewrite sanitize_irc_name_filter, Hnone.
  - intros name c. rewrite sanitize_irc_name_filter.
    destruct (List.filter irc_name_char name) as [|d s] eqn:Hf; simpl.
    + intros Hin. apply list_elem_of_In in Hin.
      vm_compute in Hin. intuition (subst; reflexivity).
    + intros Hin. apply list_elem_of_In in Hin.
      rewrite <- Hf in Hin. by apply List.filter_In in Hin as [_ ?].
  - intros Hu. unfold nick_base. by rewrite Hu.
  - apply nick_base_nonempty.
  - apply sanitize_irc_name_nonempty.
Qed.

(** C6 (truncation boundary).  With a maximum nickname length that is not
    negative: when the sanitized base name followed by a slash and the
    suffix is longer than [limits.nick_max], the nickname is its prefix of
    exactly [nick_max] characters; otherwise it is the whole of it. *)
Theorem build_nick_truncation (tg_user : TgUser) (cfg : Config) :
  0 ≤ limits_nick_max cfg →
  let full := sanitize_irc_name (nick_base tg_user)
              ++ lit "/" ++ identity_suffix cfg in
  let nick := build_nick_from_telegram tg_user cfg in
  (limits_nick_max cfg < Z.of_nat (length full) →
   Z.of_nat (length nick) = limits_nick_max cfg
   ∧ nick `prefix_of` full
   ∧ nick = take (Z.to_nat (limits_nick_max cfg)) full)
  ∧ (Z.of_nat (length full) ≤ limits_nick_max cfg → nick = full).
Proof.
  intros Hmax full nick.
  assert (Hnick : nick = take (Z.to_nat (limits_nick_max cfg)) full).
  { subst nick full. unfold build_nick_from_telegram.
    by rewrite slice_to_nonneg. }
  split.
  - intros Hlong. split; [|split; [|done]].
    + rewrite Hnick, length_take. lia.
    + rewrite Hnick. apply prefix_take.
  - intros Hshort. rewrite Hnick. apply take_ge. lia.
Qed.

(** ** Runs of the handlers *)

(** Literals stay folded while the handlers are unfolded. *)
Opaque lit str_int.

Lemma new_calls_app (w w' : World) (cs : list Call) :
  calls w' = calls w ++ cs → new_calls w w' = cs.
Proof. intros H. unfold new_calls. by rewrite H, drop_app_length. Qed.

(** A loop that only makes calls appends them in the order of the list. *)
Lemma for_each_emit {A} (f : A → Call) (l : list A) (w : World) :
  for_each l (λ x, emit (f x)) w
  = (Ok (), {| telegram_users := telegram_users w;
               bridge_map := bridge_map w;
               calls := calls w ++ (f <$> l);
               clock_reads := clock_reads w |}).
Proof.
  revert w. induction l as [|x l IH]; intros [t m cs n]; simpl.
  - unfold_m. by rewrite app_nil_r.
  - unfold_m. unfold emit, modify. simpl. rewrite IH. simpl.
    by rewrite <- app_assoc.
Qed.

(** C2 (anti-loop).  A message of the local network whose source has the
    configured relay ident leaves the world as it was, whatever its target
    and text: no call is made, so nothing is sent to any remote chat. *)
Theorem anti_loop_no_send (telegram_app : bool) (cfg : Config) (source : Source)
    (target message : pystr) (w : World) :
  ident source = identity_ident cfg →
  on_irc_privmsg telegram_app cfg source target message w = (Ok (), w)
  ∧ sends (new_calls w (on_irc_privmsg telegram_app cfg source target message w).2)
    = [].
Proof.
  intros Hident.
  assert (Hrun : on_irc_privmsg telegram_app cfg source target message w
                 = (Ok (), w)).
  { unfold on_irc_privmsg. by rewrite decide_True. }
  split; [done|].
  rewrite Hrun. simpl. unfold new_calls. by rewrite drop_all.
Qed.

Lemma quits_fmap_quit (reason : pystr) (t : list (Z * Entry)) :
  quits ((λ kv, Quit (user kv.2) reason) <$> t)
  = (λ kv, (user kv.2, reason)) <$> t.
Proof.
  unfold quits. induction t as [|kv t IH]; csimpl; [done|]. by rewrite IH.
Qed.

(** C9 (teardown).  Teardown logs one line and then calls [irc.quit] once
    for each entry of [telegram_users], in the order of the table, with the
    shutdown reason; the table (and the bridge map) is the same afterwards,
    so every entry is still stored. *)
Theorem teardown_quits_all_keeps_table (w : World) :
  let reason := lit "Telegram relay shutdown" in
  let w' := (teardown w).2 in
  (teardown w).1 = Ok ()
  ∧ telegram_users w' = telegram_users w
  ∧ bridge_map w' = bridge_map w
  ∧ new_calls w w'
    = LogInfo (lit "[telegram] plugin unloaded")
      :: ((λ kv, Quit (user kv.2) reason) <$> telegram_users w)
  ∧ quits (new_calls w w') = (λ kv, (user kv.2, reason)) <$> telegram_users w
  ∧ length (quits (new_calls w w')) = length (telegram_users w)
  ∧ (∀ (i : nat) (k : Z) (e : Entry),
       telegram_users w !! i = Some (k, e) →
       telegram_users w' !! i = Some (k, e)
       ∧ quits (new_calls w w') !! i = Some (user e, reason)).
Proof.
  intros reason w'.
  assert (Hrun : teardown w
    = (Ok (), {| telegram_users := telegram_users w;
                 bridge_map := bridge_map w;
                 calls := calls w ++ LogInfo (lit "[telegram] plugin unloaded")
                   :: ((λ kv, Quit (user kv.2) reason) <$> telegram_users w);
                 clock_reads := clock_reads w |})).
  { unfold teardown, mbind, M_bind, bind, get_world.
    change (emit ?c w) with (Ok (), with_call c w).
    cbv beta iota. rewrite for_each_emit. simpl. f_equal. f_equal.
    rewrite <- app_assoc. simpl. f_equal. f_equal.
    unfold Dict.values. by rewrite <- list_fmap_compose. }
  subst w'. rewrite Hrun. simpl.
  pose proof (quits_fmap_quit reason (telegram_users w)) as Hq.
  repeat split; try done.
  - by apply new_calls_app.
  - erewrite new_calls_app by done.
    change (quits (LogInfo ?l :: ?cs)) with (quits cs). apply Hq.
  - erewrite new_calls_app by done.
    change (quits (LogInfo ?l :: ?cs)) with (quits cs).
    by rewrite Hq, length_fmap.
  - erewrite new_calls_app by done.
    change (quits (LogInfo ?l :: ?cs)) with (quits cs).
    rewrite Hq, list_lookup_fmap.
    match goal with Hi : _ !! _ = Some _ |- _ => by rewrite Hi end.
Qed.

Lemma new_calls_refl (w : World) : new_calls w w = [].
Proof. unfold new_calls. by rewrite drop_all. Qed.

(** A loop that makes a call for the items that pass a test. *)
Lemma for_each_emit_if {A} (P : A → Prop) `{!∀ x, Decision (P x)}
    (f : A → Call) (l : list A) (w : World) :
  for_each l (λ x, if decide (P x) then emit (f x) else mret ()) w
  = (Ok (), {| telegram_users := telegram_users w;
               bridge_map := bridge_map w;
               calls := calls w ++ (f <$> filter P l);
               clock_reads := clock_reads w |}).
Proof.
  revert w. induction l as [|x l IH]; intros [t m cs n]; simpl.
  - unfold_m. by rewrite app_nil_r.
  - unfold_m. rewrite filter_cons. destruct (decide (P x)); simpl.
    + rewrite IH. simpl. by rewrite <- app_assoc.
    + by rewrite IH.
Qed.

Lemma posts_app (cs1 cs2 : list Call) : posts (cs1 ++ cs2) = posts cs1 ++ posts cs2.
Proof. apply omap_app. Qed.

Lemma posts_joins {A} (h : A → Handle) (ch : A → pystr) (l : list A) :
  posts ((λ x, Join (h x) (ch x)) <$> l) = [].
Proof. unfold posts. induction l as [|x l IH]; csimpl; done. Qed.



(** ** The dict operations *)

Lemma dict_get_None {V} (k : Z) (d : list (Z * V)) :
  Dict.get k d = None ↔ k ∉ Dict.keys d.
Proof.
  unfold Dict.keys. induction d as [|[k' v] d IH]; simpl.
  - split; [intros _; apply not_elem_of_nil | done].
  - rewrite not_elem_of_cons. destruct (decide (k = k')); [|tauto].
    split; [done | intros [? _]; done].
Qed.

Lemma dict_get_Some_key {V} (k : Z) (v : V) (d : list (Z * V)) :
  Dict.get k d = Some v → k ∈ Dict.keys d.
Proof.
  intros Hget. destruct (decide (k ∈ Dict.keys d)) as [|Hno]; [done|].
  apply dict_get_None in Hno. congruence.
Qed.

Lemma dict_get_set_eq {V} (k : Z) (v : V) (d : list (Z * V)) :
  Dict.get k (Dict.set k v d) = Some v.
Proof.
  induction d as [|[k' v'] d IH]; simpl.
  - by rewrite decide_True.
  - destruct (decide (k = k')) as [->|Hne]; simpl.
    + by rewrite decide_True.
    + by rewrite decide_False.
Qed.

Lemma dict_get_set_ne {V} (k k' : Z) (v : V) (d : list (Z * V)) :
  k ≠ k' → Dict.get k' (Dict.set k v d) = Dict.get k' d.
Proof.
  intros Hne. induction d as [|[k0 v0] d IH]; simpl.
  - by rewrite decide_False.
  - destruct (decide (k = k0)) as [->|Hne0]; simpl.
    + by rewrite !decide_False.
    + by rewrite IH.
Qed.

Lemma dict_set_absent {V} (k : Z) (v : V) (d : list (Z * V)) :
  Dict.get k d = None → Dict.set k v d = d ++ [(k, v)].
Proof.
  induction d as [|[k' v'] d IH]; simpl; [done|].
  destruct (decide (k = k')); [done|]. intros Hd. by rewrite IH.
Qed.

Lemma dict_keys_set_present {V} (k : Z) (v v0 : V) (d : list (Z * V)) :
  Dict.get k d = Some v0 → Dict.keys (Dict.set k v d) = Dict.keys d.
Proof.
  unfold Dict.keys. induction d as [|[k' v'] d IH]; simpl; [done|].
  destruct (decide (k = k')) as [->|Hne]; simpl; [done|].
  intros Hd. f_equal. by apply IH.
Qed.

(** Assignment keeps the keys of a dict distinct. *)
Lemma dict_wf_set {V} (k : Z) (v : V) (d : list (Z * V)) :
  Dict.wf d → Dict.wf (Dict.set k v d).
Proof.
  unfold Dict.wf. intros Hwf.
  destruct (Dict.get k d) as [v0|] eqn:Hget.
  - by rewrite (dict_keys_set_present k v v0).
  - rewrite dict_set_absent by done. unfold Dict.keys.
    rewrite fmap_app. simpl. apply NoDup_app. split; [done|]. split.
    + intros x Hx ->%list_elem_of_singleton.
      by apply dict_get_None in Hget.
    + apply NoDup_singleton.
Qed.

Lemma dict_get_app_r {V} (k : Z) (d1 d2 : list (Z * V)) :
  k ∉ Dict.keys d1 → Dict.get k (d1 ++ d2) = Dict.get k d2.
Proof.
  unfold Dict.keys. induction d1 as [|[k' v'] d1 IH]; simpl; [done|].
  rewrite not_elem_of_cons. intros [Hne Hno]. by rewrite decide_False, IH.
Qed.

Lemma dict_del_app_r {V} (k : Z) (d1 d2 : list (Z * V)) :
  k ∉ Dict.keys d1 → Dict.del k (d1 ++ d2) = d1 ++ Dict.del k d2.
Proof.
  unfold Dict.keys. induction d1 as [|[k' v'] d1 IH]; simpl; [done|].
  rewrite not_elem_of_cons. intros [Hne Hno]. by rewrite decide_False, IH.
Qed.

Lemma dict_keys_filter_subseteq {V} (P : Z * V → Prop) `{!∀ x, Decision (P x)}
    (k : Z) (d : list (Z * V)) :
  k ∈ Dict.keys (filter P d) → k ∈ Dict.keys d.
Proof.
  unfold Dict.keys. intros ([k' v] & -> & Hin)%list_elem_of_fmap.
  apply list_elem_of_filter in Hin as [_ Hin].
  by apply (list_elem_of_fmap_2 fst) in Hin.
Qed.

(** Looking up a key after the items of a dict were filtered. *)
Lemma dict_get_filter {V} (P : Z * V → Prop) `{!∀ x, Decision (P x)}
    (k : Z) (v : V) (d : list (Z * V)) :
  Dict.wf d → Dict.get k d = Some v →
  Dict.get k (filter P d) = if decide (P (k, v)) then Some v else None.
Proof.
  unfold Dict.wf, Dict.keys. induction d as [|[k' v'] d IH]; csimpl; [done|].
  intros [Hk' Hnd]%NoDup_cons. rewrite filter_cons.
  destruct (decide (k = k')) as [->|Hne].
  - intros [= ->]. destruct (decide (P (k', v))); simpl.
    + by rewrite decide_True.
    + apply dict_get_None. intros Hin. apply Hk'.
      by apply dict_keys_filter_subseteq in Hin.
  - intros Hget. destruct (decide (P (k', v'))); simpl.
    + rewrite decide_False by done. by apply IH.
    + by apply IH.
Qed.

Lemma dict_wf_filter {V} (P : Z * V → Prop) `{!∀ x, Decision (P x)}
    (d : list (Z * V)) :
  Dict.wf d → Dict.wf (filter P d).
Proof.
  unfold Dict.wf, Dict.keys. induction d as [|[k v] d IH]; csimpl; [done|].
  intros [Hk Hnd]%NoDup_cons. rewrite filter_cons.
  destruct (decide (P (k, v))); csimpl; [|by apply IH].
  apply NoDup_cons. split; [|by apply IH].
  intros Hin. apply Hk. by apply dict_keys_filter_subseteq in Hin.
Qed.

Section PluginProperties.

Variable clock : nat → Z.
Variable create_user : list Call → pystr → pystr → pystr → pystr → Result Handle.

(** *** [get_or_create_irc_user], case by case *)

Lemma get_or_create_known (cfg : Config) (u : TgUser) (w : World) (e : Entry) :
  Dict.get (id u) (telegram_users w) = Some e →
  get_or_create_irc_user clock create_user cfg u w = (Ok (user e), w).
Proof.
  intros Hget. unfold get_or_create_irc_user. unfold_m. simpl.
  by rewrite Hget.
Qed.

Lemma get_or_create_raise (cfg : Config) (u : TgUser) (w : World) (x : PyExn) :
  let nick := build_nick_from_telegram u cfg in
  Dict.get (id u) (telegram_users w) = None →
  create_user (calls w) nick (identity_ident cfg) (identity_host cfg)
              (build_realname u) = Raise x →
  get_or_create_irc_user clock create_user cfg u w
  = (Raise x, with_call (CreateUser nick (identity_ident cfg)
                           (identity_host cfg) (build_realname u) (Raise x)) w).
Proof.
  intros nick Hget Hres. unfold get_or_create_irc_user. unfold_m. simpl.
  rewrite Hget. unfold irc_create_user. fold nick. by rewrite Hres.
Qed.

Lemma get_or_create_new (cfg : Config) (u : TgUser) (w : World) (h : Handle) :
  let nick := build_nick_from_telegram u cfg in
  Dict.get (id u) (telegram_users w) = None →
  create_user (calls w) nick (identity_ident cfg) (identity_host cfg)
              (build_realname u) = Ok h →
  get_or_create_irc_user clock create_user cfg u w
  = (Ok h,
     {| telegram_users :=
          Dict.set (id u) {| user := h; last_seen := clock (clock_reads w) |}
                   (telegram_users w);
        bridge_map := bridge_map w;
        calls := calls w
          ++ CreateUser nick (identity_ident cfg) (identity_host cfg)
                        (build_realname u) (Ok h)
             :: ((λ b, Join h (irc_channel b)) <$> bridges cfg)
          ++ [LogInfo (lit "[telegram] created IRC user: " ++ nick)];
        clock_reads := S (clock_reads w) |}).
Proof.
  intros nick Hget Hres. unfold get_or_create_irc_user. unfold_m. simpl.
  rewrite Hget. unfold irc_create_user. fold nick. rewrite Hres.
  rewrite for_each_emit. simpl. f_equal. unfold_w. f_equal.
  by rewrite <- !app_assoc.
Qed.

(** After a call that returned, the table holds the returned handle. *)
Lemma get_or_create_stored (cfg : Config) (u : TgUser) (w w1 : World)
    (h : Handle) :
  get_or_create_irc_user clock create_user cfg u w = (Ok h, w1) →
  ∃ e, Dict.get (id u) (telegram_users w1) = Some e ∧ user e = h.
Proof.
  intros Hrun. destruct (Dict.get (id u) (telegram_users w)) as [e|] eqn:Hget.
  - rewrite (get_or_create_known cfg u w e Hget) in Hrun.
    injection Hrun as <- <-. by exists e.
  - destruct (create_user (calls w) (build_nick_from_telegram u cfg)
                (identity_ident cfg) (identity_host cfg) (build_realname u))
      as [h'|x] eqn:Hres.
    + rewrite (get_or_create_new cfg u w h' Hget Hres) in Hrun.
      injection Hrun as <- <-. simpl. rewrite dict_get_set_eq. by eexists.
    + by rewrite (get_or_create_raise cfg u w x Hget Hres) in Hrun.
Qed.

(** *** [on_telegram_message], case by case *)

(** The text of a bridged message whose author was resolved is posted once,
    after the author's [last_seen] was set to the time read then. *)
Lemma on_telegram_message_relay (cfg : Config) (upd : Update) (msg : Message)
    (bridge : Bridge) (u : TgUser) (w w1 : World) (h : Handle) :
  message upd = Some msg →
  truthy (text msg) = true →
  bridge_map w !! str_int (chat_id msg) = Some bridge →
  from_user msg = Some u →
  get_or_create_irc_user clock create_user cfg u w = (Ok h, w1) →
  on_telegram_message clock create_user cfg upd w
  = (Ok (),
     {| telegram_users :=
          Dict.set (id u) {| user := h; last_seen := clock (clock_reads w1) |}
                   (telegram_users w1);
        bridge_map := bridge_map w1;
        calls := calls w1
          ++ [SendPrivmsg (irc_channel bridge)
                (slice_to (limits_message_max cfg) (default [] (text msg))) h];
        clock_reads := S (clock_reads w1) |}).
Proof.
  intros Hmsg Htext Hbridge Hfrom Hrun.
  destruct (get_or_create_stored cfg u w w1 h Hrun) as (e & Hget & He).
  unfold on_telegram_message. rewrite Hmsg, Htext. simpl.
  unfold_m. simpl. rewrite Hbridge, Hfrom, Hrun.
  unfold touch_last_seen, time_time, users_getitem. unfold_m. simpl.
  rewrite Hget. by rewrite He.
Qed.

(** An exception of [get_or_create_irc_user] leaves the handler at once. *)
Lemma on_telegram_message_raise (cfg : Config) (upd : Update) (msg : Message)
    (bridge : Bridge) (u : TgUser) (w w1 : World) (x : PyExn) :
  message upd = Some msg →
  truthy (text msg) = true →
  bridge_map w !! str_int (chat_id msg) = Some bridge →
  from_user msg = Some u →
  get_or_create_irc_user clock create_user cfg u w = (Raise x, w1) →
  on_telegram_message clock create_user cfg upd w = (Raise x, w1).
Proof.
  intros Hmsg Htext Hbridge Hfrom Hrun.
  unfold on_telegram_message. rewrite Hmsg, Htext. simpl.
  unfold_m. simpl. by rewrite Hbridge, Hfrom, Hrun.
Qed.

(** C4 (identities that exist), as the code has it.  For a profile whose id
    is in the table, [get_or_create_irc_user] returns the stored handle and
    changes nothing: no call, no read of the clock, the same [last_seen].
    It is [on_telegram_message] that, for every message it relays from that
    participant, sets the entry's [last_seen] to the time it reads, keeps
    the handle and posts the text as that handle. *)
Theorem existing_identity_reused (cfg : Config) (u : TgUser) (w : World)
    (e : Entry) :
  Dict.get (id u) (telegram_users w) = Some e →
  get_or_create_irc_user clock create_user cfg u w = (Ok (user e), w)
  ∧ (∀ (upd : Update) (msg : Message) (bridge : Bridge),
       message upd = Some msg →
       truthy (text msg) = true →
       bridge_map w !! str_int (chat_id msg) = Some bridge →
       from_user msg = Some u →
       let w' := (on_telegram_message clock create_user cfg upd w).2 in
       (on_telegram_message clock create_user cfg upd w).1 = Ok ()
       ∧ Dict.get (id u) (telegram_users w')
         = Some {| user := user e; last_seen := clock (clock_reads w) |}
       ∧ Dict.keys (telegram_users w') = Dict.keys (telegram_users w)
       ∧ new_calls w w'
         = [SendPrivmsg (irc_channel bridge)
              (slice_to (limits_message_max cfg) (default [] (text msg)))
              (user e)]).
Proof.
  intros Hget. pose proof (get_or_create_known cfg u w e Hget) as Hknown.
  split; [done|].
  intros upd msg bridge Hmsg Htext Hbridge Hfrom w'. subst w'.
  rewrite (on_telegram_message_relay cfg upd msg bridge u w w (user e)) by done.
  simpl. repeat split.
  - apply dict_get_set_eq.
  - by apply dict_keys_set_present with e.
  - by apply new_calls_app.
Qed.

(** C8 (registration failure), as the code has it.  When [irc.create_user]
    raises for the author of a bridged message, the handler ends with that
    same exception: it is not caught.  The only call made is the failed
    [create_user]; nothing is posted, joined or logged, the clock is not
    read, and the table and the bridge map are as before, so the message is
    dropped and later messages find the state they would have found. *)
Theorem registration_failure_propagates (cfg : Config) (upd : Update)
    (msg : Message) (bridge : Bridge) (u : TgUser) (w : World) (x : PyExn) :
  let nick := build_nick_from_telegram u cfg in
  let failed := CreateUser nick (identity_ident cfg) (identity_host cfg)
                           (build_realname u) (Raise x) in
  message upd = Some msg →
  truthy (text msg) = true →
  bridge_map w !! str_int (chat_id msg) = Some bridge →
  from_user msg = Some u →
  Dict.get (id u) (telegram_users w) = None →
  create_user (calls w) nick (identity_ident cfg) (identity_host cfg)
              (build_realname u) = Raise x →
  let w' := (on_telegram_message clock create_user cfg upd w).2 in
  (on_telegram_message clock create_user cfg upd w).1 = Raise x
  ∧ telegram_users w' = telegram_users w
  ∧ bridge_map w' = bridge_map w
  ∧ clock_reads w' = clock_reads w
  ∧ new_calls w w' = [failed]
  ∧ posts (new_calls w w') = []
  ∧ logged (new_calls w w') = [].
Proof.
  intros nick failed Hmsg Htext Hbridge Hfrom Hget Hres w'. subst w'.
  pose proof (get_or_create_raise cfg u w x Hget Hres) as Hraise.
  rewrite (on_telegram_message_raise cfg upd msg bridge u w _ x
             Hmsg Htext Hbridge Hfrom Hraise).
  simpl. fold nick. fold failed.
  assert (Hnew : new_calls w (with_call failed w) = [failed])
    by by apply new_calls_app.
  rewrite Hnew. by repeat split.
Qed.

(** *** Calls of the handlers *)

(** [get_or_create_irc_user] keeps the bridge map and posts nothing. *)
Lemma get_or_create_calls (cfg : Config) (u : TgUser) (w : World) :
  let w1 := (get_or_create_irc_user clock create_user cfg u w).2 in
  bridge_map w1 = bridge_map w
  ∧ ∃ cs, calls w1 = calls w ++ cs ∧ posts cs = [].
Proof.
  destruct (Dict.get (id u) (telegram_users w)) as [e|] eqn:Hget.
  - rewrite (get_or_create_known cfg u w e Hget). simpl. split; [done|].
    exists []. by rewrite app_nil_r.
  - destruct (create_user (calls w) (build_nick_from_telegram u cfg)
                (identity_ident cfg) (identity_host cfg) (build_realname u))
      as [h|x] eqn:Hres.
    + rewrite (get_or_create_new cfg u w h Hget Hres). simpl. split; [done|].
      eexists. split; [done|].
      change (posts (CreateUser ?a ?b ?c ?d ?r :: ?cs)) with (posts cs).
      by rewrite posts_app, posts_joins.
    + rewrite (get_or_create_raise cfg u w x Hget Hres). simpl. split; [done|].
      by eexists.
Qed.

(** Whatever the handler posts goes to the channel that [bridge_map] gives
    for the chat of the message. *)
Lemma on_telegram_message_posts (cfg : Config) (upd : Update) (w : World)
    (ch t : pystr) (h : Handle) :
  (ch, t, h) ∈ posts (new_calls w (on_telegram_message clock create_user cfg upd w).2) →
  ∃ msg bridge,
    message upd = Some msg
    ∧ bridge_map w !! str_int (chat_id msg) = Some bridge
    ∧ ch = irc_channel bridge.
Proof.
  destruct (message upd) as [msg|] eqn:Hmsg; cycle 1.
  { unfold on_telegram_message. rewrite Hmsg. unfold_m. simpl.
    rewrite new_calls_refl. by intros ?%elem_of_nil. }
  destruct (truthy (text msg)) eqn:Htext; cycle 1.
  { unfold on_telegram_message. rewrite Hmsg, Htext. unfold_m. simpl.
    rewrite new_calls_refl. by intros ?%elem_of_nil. }
  destruct (bridge_map w !! str_int (chat_id msg)) as [bridge|] eqn:Hbridge;
    cycle 1.
  { unfold on_telegram_message. rewrite Hmsg, Htext. unfold_m. simpl.
    rewrite Hbridge. simpl. rewrite new_calls_refl. by intros ?%elem_of_nil. }
  destruct (from_user msg) as [u|] eqn:Hfrom; cycle 1.
  { unfold on_telegram_message. rewrite Hmsg, Htext. unfold_m. simpl.
    rewrite Hbridge, Hfrom. simpl. rewrite new_calls_refl.
    by intros ?%elem_of_nil. }
  destruct (get_or_create_calls cfg u w) as (_ & cs & Hcs & Hposts).
  destruct (get_or_create_irc_user clock create_user cfg u w) as [[h'|x] w1]
    eqn:Hrun; simpl in Hcs.
  - rewrite (on_telegram_message_relay cfg upd msg bridge u w w1 h') by done.
    simpl. erewrite new_calls_app; cycle 1.
    { simpl. rewrite Hcs. by rewrite <- app_assoc. }
    rewrite posts_app, Hposts. simpl.
    intros Hin%list_elem_of_singleton. injection Hin as -> _ _. eauto.
  - rewrite (on_telegram_message_raise cfg upd msg bridge u w w1 x) by done.
    simpl. erewrite new_calls_app by done. rewrite Hposts.
    by intros ?%elem_of_nil.
Qed.

(** A bridged message with a text, whose author is resolved, is posted
    exactly once. *)
Lemma on_telegram_message_posts_once (cfg : Config) (upd : Update)
    (msg : Message) (bridge : Bridge) (u : TgUser) (w : World) (h : Handle) :
  message upd = Some msg →
  truthy (text msg) = true →
  bridge_map w !! str_int (chat_id msg) = Some bridge →
  from_user msg = Some u →
  (get_or_create_irc_user clock create_user cfg u w).1 = Ok h →
  (on_telegram_message clock create_user cfg upd w).1 = Ok ()
  ∧ posts (new_calls w (on_telegram_message clock create_user cfg upd w).2)
    = [(irc_channel bridge,
        slice_to (limits_message_max cfg) (default [] (text msg)), h)].
Proof.
  intros Hmsg Htext Hbridge Hfrom Hres.
  destruct (get_or_create_calls cfg u w) as (_ & cs & Hcs & Hposts).
  destruct (get_or_create_irc_user clock create_user cfg u w) as [r w1]
    eqn:Hrun. simpl in Hres, Hcs. subst r.
  rewrite (on_telegram_message_relay cfg upd msg bridge u w w1 h) by done.
  simpl. split; [done|]. erewrite new_calls_app; cycle 1.
  { simpl. rewrite Hcs. by rewrite <- app_assoc. }
  by rewrite posts_app, Hposts.
Qed.

(** With [irc.telegram_app] set, a message from a source that is not the
    relay makes one call of [bot.send_message] for each configured bridge of
    the target channel, in the order of the list. *)
Lemma on_irc_privmsg_relay (cfg : Config) (source : Source)
    (target message : pystr) (w : World) :
  ident source ≠ identity_ident cfg →
  on_irc_privmsg true cfg source target message w
  = (Ok (),
     {| telegram_users := telegram_users w;
        bridge_map := bridge_map w;
        calls := calls w
          ++ ((λ b, SendMessage (telegram_chat_id b)
                      (lit "<" ++ nick source ++ lit "> " ++ message))
              <$> filter (λ b, target = irc_channel b) (bridges cfg));
        clock_reads := clock_reads w |}).
Proof.
  intros Hident. unfold on_irc_privmsg. rewrite decide_False by done.
  apply (for_each_emit_if (λ b, target = irc_channel b)).
Qed.


(** *** The bridge map *)

Lemma build_bridge_map_run (cfg : Config) (w : World) :
  build_bridge_map cfg w
  = (Ok (), with_bridge_map (foldl add_bridge (bridge_map w) (bridges cfg)) w).
Proof.
  unfold build_bridge_map. generalize (bridges cfg) as bs.
  intros bs. revert w. induction bs as [|b bs IH]; intros [t m cs n]; simpl.
  - done.
  - unfold_m. simpl. by rewrite IH.
Qed.

Lemma foldl_add_bridge_other (bs : list Bridge) (m : gmap pystr Bridge)
    (k : pystr) :
  (∀ b, b ∈ bs → str_chat_id (telegram_chat_id b) ≠ k) →
  foldl add_bridge m bs !! k = m !! k.
Proof.
  revert m. induction bs as [|b bs IH]; intros m Hbs; simpl; [done|].
  rewrite IH.
  - unfold add_bridge. apply lookup_insert_ne. apply Hbs. left.
  - intros b' Hb'. apply Hbs. by right.
Qed.

(** C10 (a chat id configured twice).  [build_bridge_map] stores each
    bridge under the string form of its chat id, so of the bridges that
    have the same string form the last one of the list is the one stored.
    From then on every post made for a message of that chat goes to the
    channel of that last bridge, and a message with a text whose author is
    resolved is posted there exactly once. *)
Theorem duplicate_chat_id_last_wins (cfg : Config) (w : World)
    (before after : list Bridge) (b : Bridge) :
  bridges cfg = before ++ b :: after →
  (∀ b', b' ∈ after →
     str_chat_id (telegram_chat_id b') ≠ str_chat_id (telegram_chat_id b)) →
  let wb := (build_bridge_map cfg w).2 in
  (build_bridge_map cfg w).1 = Ok ()
  ∧ bridge_map wb !! str_chat_id (telegram_chat_id b) = Some b
  ∧ telegram_users wb = telegram_users w
  ∧ calls wb = calls w
  ∧ (∀ (w2 : World) (upd : Update) (msg : Message),
       bridge_map w2 = bridge_map wb →
       message upd = Some msg →
       str_int (chat_id msg) = str_chat_id (telegram_chat_id b) →
       let w' := (on_telegram_message clock create_user cfg upd w2).2 in
       (∀ ch t h, (ch, t, h) ∈ posts (new_calls w2 w') → ch = irc_channel b)
       ∧ (∀ (u : TgUser) (h : Handle),
            truthy (text msg) = true →
            from_user msg = Some u →
            (get_or_create_irc_user clock create_user cfg u w2).1 = Ok h →
            posts (new_calls w2 w')
            = [(irc_channel b,
                slice_to (limits_message_max cfg) (default [] (text msg)), h)])).
Proof.
  intros Hbs Hlast wb. subst wb. rewrite build_bridge_map_run. simpl.
  assert (Hlook : foldl add_bridge (bridge_map w) (bridges cfg)
                    !! str_chat_id (telegram_chat_id b) = Some b).
  { rewrite Hbs, foldl_app. simpl. rewrite foldl_add_bridge_other by done.
    unfold add_bridge at 1. apply lookup_insert_eq. }
  split; [done|]. split; [done|]. split; [done|]. split; [done|].
  intros w2 upd msg Hmap Hmsg Hchat.
  assert (Hbridge : bridge_map w2 !! str_int (chat_id msg) = Some b)
    by by rewrite Hmap, Hchat.
  split.
  - intros ch t h Hin.
    apply on_telegram_message_posts in Hin as (msg' & b' & Hmsg' & Hb' & ->).
    congruence.
  - intros u h Htext Hfrom Hres.
    by apply (on_telegram_message_posts_once cfg upd msg b u w2 h).
Qed.

(** *** The idle sweep *)

(** The loop of the sweep, started when the entries [kept] were already
    visited and kept, and the entries [rest] are still to be visited. *)
Lemma cleanup_loop (now timeout : Z) (rest kept : list (Z * Entry)) (w : World) :
  telegram_users w = kept ++ rest →
  Dict.wf (kept ++ rest) →
  for_each (Dict.keys rest) (λ tg_id,
    entry ← users_getitem tg_id;
    if now - last_seen entry >? timeout then
      emit (Quit (user entry) (lit "Telegram idle timeout"));;
      users_delitem tg_id
    else mret ()) w
  = (Ok (),
     {| telegram_users :=
          kept ++ filter (λ kv, ¬ timeout < now - last_seen kv.2) rest;
        bridge_map := bridge_map w;
        calls := calls w
          ++ ((λ kv, Quit (user kv.2) (lit "Telegram idle timeout"))
              <$> filter (λ kv, timeout < now - last_seen kv.2) rest);
        clock_reads := clock_reads w |}).
Proof.
  revert kept w. induction rest as [|[k e] rest IH]; intros kept w Hw Hwf.
  - simpl. unfold_m. destruct w as [t m cs n]. simpl in *.
    by rewrite Hw, !app_nil_r.
  - assert (Hk : k ∉ Dict.keys kept).
    { unfold Dict.wf, Dict.keys in Hwf. rewrite fmap_app in Hwf.
      apply NoDup_app in Hwf as (_ & Hdisj & _).
      intros Hin. apply (Hdisj k Hin). csimpl. left. }
    assert (Hget : Dict.get k (telegram_users w) = Some e).
    { rewrite Hw, dict_get_app_r by done. simpl. by rewrite decide_True. }
    csimpl. unfold_m. unfold users_getitem at 1. unfold_m. simpl.
    rewrite Hget. rewrite !filter_cons. simpl.
    destruct (Z.gtb_spec (now - last_seen e) timeout) as [Hidle|Hfresh].
    + rewrite (decide_True (P := timeout < now - last_seen e)) by lia.
      rewrite (decide_False (P := ¬ timeout < now - last_seen e)) by lia.
      unfold users_delitem, users_getitem. unfold_m. unfold_w.
      rewrite Hget. simpl.
      rewrite (IH kept); simpl.
      * rewrite <- app_assoc. done.
      * rewrite Hw, dict_del_app_r by done. simpl. by rewrite decide_True.
      * unfold Dict.wf, Dict.keys in *. rewrite fmap_app in *.
        apply NoDup_app in Hwf as (Hn1 & Hdisj & Hn2).
        apply NoDup_cons in Hn2 as [_ Hn2].
        apply NoDup_app. split; [done|]. split; [|done].
        intros x Hx Hx'. apply (Hdisj x Hx). csimpl. by right.
    + rewrite (decide_False (P := timeout < now - last_seen e)) by lia.
      rewrite (decide_True (P := ¬ timeout < now - last_seen e)) by lia.
      rewrite (IH (kept ++ [(k, e)])); simpl.
      * by rewrite <- app_assoc.
      * by rewrite Hw, <- app_assoc.
      * by rewrite <- app_assoc.
Qed.

Lemma cleanup_sweep_run (cfg : Config) (w : World) :
  Dict.wf (telegram_users w) →
  let now := clock (clock_reads w) in
  let timeout := cleanup_idle_timeout cfg in
  cleanup_sweep clock cfg w
  = (Ok (),
     {| telegram_users :=
          filter (λ kv, ¬ timeout < now - last_seen kv.2) (telegram_users w);
        bridge_map := bridge_map w;
        calls := calls w
          ++ ((λ kv, Quit (user kv.2) (lit "Telegram idle timeout"))
              <$> filter (λ kv, timeout < now - last_seen kv.2)
                         (telegram_users w));
        clock_reads := S (clock_reads w) |}).
Proof.
  intros Hwf now timeout. unfold cleanup_sweep, time_time. unfold_m. simpl.
  by rewrite (cleanup_loop now timeout (telegram_users w) []).
Qed.

(** C5 (idle eviction boundary).  A sweep reads the time once.  The
    entries whose [last_seen] lies more than [idle_timeout] before that
    time are departed with the idle reason, in the order of the table, and
    deleted; the entries with [now - last_seen] at most [idle_timeout] stay
    as they are, and nothing else is called. *)
Theorem idle_eviction_boundary (cfg : Config) (w : World) :
  Dict.wf (telegram_users w) →
  let now := clock (clock_reads w) in
  let timeout := cleanup_idle_timeout cfg in
  let reason := lit "Telegram idle timeout" in
  let w' := (cleanup_sweep clock cfg w).2 in
  (cleanup_sweep clock cfg w).1 = Ok ()
  ∧ telegram_users w'
    = filter (λ kv, ¬ timeout < now - last_seen kv.2) (telegram_users w)
  ∧ new_calls w w'
    = (λ kv, Quit (user kv.2) reason)
      <$> filter (λ kv, timeout < now - last_seen kv.2) (telegram_users w)
  ∧ (∀ (k : Z) (e : Entry),
       Dict.get k (telegram_users w) = Some e →
       (now - last_seen e > timeout →
        Dict.get k (telegram_users w') = None
        ∧ (user e, reason) ∈ quits (new_calls w w'))
       ∧ (now - last_seen e ≤ timeout →
          Dict.get k (telegram_users w') = Some e)).
Proof.
  intros Hwf now timeout reason w'. subst w'.
  rewrite (cleanup_sweep_run cfg w Hwf). cbn [fst snd telegram_users].
  fold now timeout reason. erewrite new_calls_app by done.
  split; [done|]. split; [done|]. split; [done|].
  intros k e Hget. split.
  - intros Hidle. split.
    + rewrite (dict_get_filter _ k e) by done. simpl.
      rewrite decide_False; [done | lia].
    + rewrite quits_fmap_quit.
      apply (list_elem_of_fmap_2' _ _ (k, e)); [|done].
      apply list_elem_of_filter. split; [simpl; lia|].
      clear -Hget. induction (telegram_users w) as [|[k' e'] t IH]; [done|].
      simpl in Hget. destruct (decide (k = k')) as [->|Hne].
      * injection Hget as ->. left.
      * right. by apply IH.
  - intros Hfresh. rewrite (dict_get_filter _ k e) by done. simpl.
    rewrite decide_True; [done | lia].
Qed.

(** *** Runs over several inbound messages *)

Lemma created_app (cs1 cs2 : list Call) :
  created (cs1 ++ cs2) = created cs1 ++ created cs2.
Proof. apply omap_app. Qed.

Lemma created_joins {A} (h : A → Handle) (ch : A → pystr) (l : list A) :
  created ((λ x, Join (h x) (ch x)) <$> l) = [].
Proof. unfold created. induction l as [|x l IH]; csimpl; done. Qed.

Lemma author_Some (upd : Update) (w : World) (u : TgUser) :
  author upd w = Some u →
  ∃ msg bridge,
    message upd = Some msg ∧ truthy (text msg) = true
    ∧ bridge_map w !! str_int (chat_id msg) = Some bridge
    ∧ from_user msg = Some u.
Proof.
  unfold author. destruct (message upd) as [msg|]; simpl; [|done].
  destruct (truthy (text msg)) eqn:Htext; [|done].
  destruct (bridge_map w !! str_int (chat_id msg)) as [bridge|] eqn:Hb;
    simpl; [|done].
  intros Hfrom. by exists msg, bridge.
Qed.

(** With an author the handler is its call of [get_or_create_irc_user] in
    the world it started in, followed by lines 87 to 95. *)
Lemma author_call (cfg : Config) (upd : Update) (w : World) (u : TgUser) :
  author upd w = Some u →
  ∃ msg bridge,
    message upd = Some msg
    ∧ bridge_map w !! str_int (chat_id msg) = Some bridge
    ∧ on_telegram_message clock create_user cfg upd w
      = (user ← get_or_create_irc_user clock create_user cfg u;
         touch_last_seen clock (id u);;
         emit (SendPrivmsg (irc_channel bridge)
                 (slice_to (limits_message_max cfg) (default [] (text msg)))
                 user)) w.
Proof.
  intros (msg & bridge & Hmsg & Htext & Hbridge & Hfrom)%author_Some.
  exists msg, bridge. split; [done|]. split; [done|].
  unfold on_telegram_message. rewrite Hmsg, Htext. simpl.
  unfold_m. simpl. by rewrite Hbridge, Hfrom.
Qed.

(** A handler that does not reach the call changes nothing. *)
Lemma author_None_unchanged (cfg : Config) (upd : Update) (w : World) :
  author upd w = None →
  (on_telegram_message clock create_user cfg upd w).2 = w.
Proof.
  unfold author, on_telegram_message.
  destruct (message upd) as [msg|]; simpl; [|done].
  destruct (truthy (text msg)); simpl; [|done].
  unfold_m. simpl.
  destruct (bridge_map w !! str_int (chat_id msg)) as [bridge|]; simpl; [|done].
  by intros ->.
Qed.








End PluginProperties.

(** * Further properties of the module *)

Transparent lit str_int.

(** ** Strings, names and nicknames *)

Lemma lit_inj (s1 s2 : string) : lit s1 = lit s2 → s1 = s2.
Proof.
  unfold lit. intros Heq.
  rewrite <- (String.string_of_list_ascii_of_string s1),
          <- (String.string_of_list_ascii_of_string s2).
  f_equal. revert Heq.
  generalize (String.list_ascii_of_string s1) as l1.
  generalize (String.list_ascii_of_string s2) as l2.
  intros l2 l1. revert l2.
  induction l1 as [|a l1 IH]; intros [|b l2]; csimpl; try done.
  intros [= Hab Hl]. f_equal; [|by apply IH].
  unfold ord in Hab.
  by rewrite <- (ascii_N_embedding a), <- (ascii_N_embedding b), Hab.
Qed.

(** [str] of two different ints gives two different strings. *)
Lemma str_int_inj (n m : Z) : str_int n = str_int m → n = m.
Proof. unfold str_int. intros Heq%lit_inj. by apply (inj pretty). Qed.

Lemma filter_name_char_all (name : pystr) :
  Forall (λ c, irc_name_char c = true) name →
  List.filter irc_name_char name = name.
Proof.
  induction 1 as [|c name Hc _ IH]; simpl; [done|]. by rewrite Hc, IH.
Qed.

Lemma sanitize_irc_name_chars (name : pystr) :
  Forall (λ c, irc_name_char c = true) (sanitize_irc_name name).
Proof.
  rewrite sanitize_irc_name_filter.
  destruct (List.filter irc_name_char name) as [|d s] eqn:Hf; simpl.
  - by vm_compute; repeat constructor.
  - rewrite <- Hf. apply Forall_forall. intros c Hin%list_elem_of_In.
    by apply List.filter_In in Hin as [_ ?].
Qed.

(** X (valid names).  A name that is not empty and has only characters of
    the nickname alphabet is returned as it is. *)
Theorem sanitize_keeps_valid_names (name : pystr) :
  name ≠ [] →
  Forall (λ c, irc_name_char c = true) name →
  sanitize_irc_name name = name.
Proof.
  intros Hne Hall.
  rewrite sanitize_irc_name_filter, filter_name_char_all by done.
  by destruct name.
Qed.

(** X (idempotence).  Sanitizing a second time changes nothing, also when
    the first result is the fallback literal. *)
Theorem sanitize_idempotent (name : pystr) :
  sanitize_irc_name (sanitize_irc_name name) = sanitize_irc_name name.
Proof.
  rewrite (sanitize_irc_name_filter (sanitize_irc_name name)).
  rewrite filter_name_char_all by apply sanitize_irc_name_chars.
  pose proof (sanitize_irc_name_nonempty name) as Hne.
  by destruct (sanitize_irc_name name).
Qed.

Lemma slice_to_sublist {A} (n : Z) (s : list A) : slice_to n s `prefix_of` s.
Proof. unfold slice_to. destruct (0 <=? n); apply prefix_take. Qed.

(** X (alphabet of a nickname).  Whatever the maximum length, every
    character of a nickname is a character of the nickname alphabet, the
    slash, or a character of the configured suffix. *)
Theorem build_nick_alphabet (tg_user : TgUser) (cfg : Config) (c : N) :
  c ∈ build_nick_from_telegram tg_user cfg →
  irc_name_char c = true ∨ c = ord "/" ∨ c ∈ identity_suffix cfg.
Proof.
  unfold build_nick_from_telegram. intros Hin.
  destruct (slice_to_sublist (limits_nick_max cfg)
              (sanitize_irc_name (nick_base tg_user)
               ++ lit "/" ++ identity_suffix cfg)) as [rest Hrest].
  assert (Hfull : c ∈ sanitize_irc_name (nick_base tg_user)
                      ++ lit "/" ++ identity_suffix cfg).
  { rewrite Hrest. apply elem_of_app. by left. }
  apply elem_of_app in Hfull as [Hbase|Hfull].
  - left. pose proof (sanitize_irc_name_chars (nick_base tg_user)) as Hall.
    rewrite Forall_forall in Hall. by apply Hall.
  - apply elem_of_app in Hfull as [Hslash|Hsuffix]; [|by right; right].
    right; left. by apply list_elem_of_singleton in Hslash.
Qed.

(** X (a nickname is not empty).  With a maximum length of at least one the
    nickname is not empty and begins with the first character of the
    sanitized base name, a character of the nickname alphabet. *)
Theorem build_nick_starts_with_base (tg_user : TgUser) (cfg : Config) :
  1 ≤ limits_nick_max cfg →
  ∃ c rest,
    build_nick_from_telegram tg_user cfg = c :: rest
    ∧ head (sanitize_irc_name (nick_base tg_user)) = Some c
    ∧ irc_name_char c = true.
Proof.
  intros Hmax. unfold build_nick_from_telegram.
  rewrite slice_to_nonneg by lia.
  pose proof (sanitize_irc_name_nonempty (nick_base tg_user)) as Hne.
  pose proof (sanitize_irc_name_chars (nick_base tg_user)) as Hall.
  destruct (sanitize_irc_name (nick_base tg_user)) as [|c base]; [done|].
  apply Forall_cons in Hall as [Hc _].
  destruct (Z.to_nat (limits_nick_max cfg)) as [|n] eqn:Hn; [lia|].
  simpl. by eexists _, _.
Qed.

Lemma lstrip_head (s : pystr) (c : N) :
  head (lstrip s) = Some c → is_space c = false.
Proof.
  induction s as [|d s IH]; simpl; [done|].
  destruct (is_space d) eqn:Hd; [done|]. simpl. by intros [= <-].
Qed.

Lemma lstrip_no_space (c : N) (s : pystr) :
  is_space c = false → lstrip (c :: s) = c :: s.
Proof. intros Hc. simpl. by rewrite Hc. Qed.

(** Stripping on the left of [x ++ y] when [y] begins with a character
    that is not white space. *)
Lemma lstrip_app_no_space (x : pystr) (c : N) (y : pystr) :
  is_space c = false → lstrip (x ++ c :: y) = lstrip x ++ c :: y.
Proof.
  intros Hc. induction x as [|d x IH]; simpl.
  - by rewrite Hc.
  - by destruct (is_space d).
Qed.

(** Stripping a string whose first part begins and ends with characters
    that are not white space: only the end of the second part can go. *)
Lemma strip_after_core (a b : N) (core rest : pystr) :
  is_space a = false → is_space b = false →
  strip ((a :: core ++ [b]) ++ rest)
  = (a :: core ++ [b]) ++ reverse (lstrip (reverse rest)).
Proof.
  intros Ha Hb. unfold strip.
  rewrite <- app_comm_cons, lstrip_no_space by done.
  rewrite app_comm_cons, reverse_app.
  rewrite (app_comm_cons core [b] a), (reverse_app (a :: core) [b]).
  change (reverse [b]) with [b]. simpl ([b] ++ _).
  rewrite lstrip_app_no_space by done.
  rewrite reverse_app, reverse_cons, reverse_involutive.
  done.
Qed.

(** One space at the end, after a character that is not white space, is
    what stripping on the right removes. *)
Lemma rstrip_one_space (x : pystr) (c : N) :
  is_space c = false →
  reverse (lstrip (reverse (x ++ [c] ++ lit " "))) = x ++ [c].
Proof.
  intros Hc. rewrite reverse_app.
  change (reverse ([c] ++ lit " ")) with [ord " "; c].
  change (lstrip ([ord " "; c] ++ reverse x)) with (lstrip (c :: reverse x)).
  rewrite lstrip_no_space by done.
  by rewrite reverse_cons, reverse_involutive.
Qed.

(** The real name of a profile without a username: the literal, then what
    is left of the names once the white space at the end is removed. *)
Lemma build_realname_nameless (tg_user : TgUser) :
  truthy (username tg_user) = false →
  build_realname tg_user
  = lit "Telegram"
    ++ reverse (lstrip (reverse (lit " " ++ or_empty (first_name tg_user)
                                 ++ lit " " ++ or_empty (last_name tg_user)))).
Proof.
  intros Hu. unfold build_realname. rewrite Hu.
  change (lit "Telegram ") with (lit "Telegram" ++ lit " ").
  rewrite <- !app_assoc.
  change (lit "Telegram") with (ord "T" :: lit "elegra" ++ [ord "m"]).
  by rewrite strip_after_core.
Qed.

(** X (real names).  The real name begins with the literal Telegram.  With
    a username it is that literal, a space, an at sign and the username.
    Without one it is the literal and the names separated by spaces, with
    no white space at the end: the literal alone when there are no names,
    the literal and the first name when there is no last name. *)
Theorem build_realname_shape (tg_user : TgUser) :
  lit "Telegram" `prefix_of` build_realname tg_user
  ∧ (truthy (username tg_user) = true →
     build_realname tg_user = lit "Telegram @" ++ default [] (username tg_user))
  ∧ (truthy (username tg_user) = false →
     ∀ c, last (build_realname tg_user) = Some c → is_space c = false)
  ∧ (truthy (username tg_user) = false →
     truthy (first_name tg_user) = false →
     truthy (last_name tg_user) = false →
     build_realname tg_user = lit "Telegram")
  ∧ (truthy (username tg_user) = false →
     truthy (last_name tg_user) = false →
     ∀ c, last (default [] (first_name tg_user)) = Some c →
          is_space c = false →
          build_realname tg_user
          = lit "Telegram " ++ default [] (first_name tg_user)).
Proof.
  split; [|split; [|split; [|split]]].
  - destruct (truthy (username tg_user)) eqn:Hu.
    + unfold build_realname. rewrite Hu.
      change (lit "Telegram @") with (lit "Telegram" ++ lit " @").
      rewrite <- app_assoc. by apply prefix_app_r.
    + rewrite build_realname_nameless by done. by apply prefix_app_r.
  - intros Hu. unfold build_realname. by rewrite Hu.
  - intros Hu c. rewrite build_realname_nameless by done.
    destruct (lstrip _) as [|d rest] eqn:Hstrip.
    + rewrite app_nil_r. by intros [= <-].
    + rewrite reverse_cons, app_assoc, last_snoc. intros [= <-].
      apply (lstrip_head (reverse (lit " " ++ or_empty (first_name tg_user)
                                   ++ lit " " ++ or_empty (last_name tg_user)))).
      by rewrite Hstrip.
  - intros Hu Hf Hl. rewrite build_realname_nameless by done.
    destruct (first_name tg_user) as [[|? ?]|], (last_name tg_user) as [[|? ?]|];
      done.
  - intros Hu Hl c Hlast Hc. rewrite build_realname_nameless by done.
    assert (Hlast_empty : or_empty (last_name tg_user) = []).
    { by destruct (last_name tg_user) as [[|? ?]|]. }
    rewrite Hlast_empty, app_nil_r, or_empty_default.
    destruct (default [] (first_name tg_user)) as [|f0 fs _] using rev_ind;
      [done|].
    rewrite last_snoc in Hlast. injection Hlast as ->.
    change (lit "Telegram ") with (lit "Telegram" ++ lit " ").
    rewrite <- !app_assoc. do 2 f_equal.
    rewrite !(app_assoc (lit " ") fs).
    by apply rstrip_one_space.
Qed.

(** ** The handlers *)

Opaque lit str_int.

Section MoreProperties.

Variable clock : nat → Z.
Variable create_user : list Call → pystr → pystr → pystr → pystr → Result Handle.

(** X (message truncation).  With a maximum message length that is not
    negative, the text posted for a relayed message is the text received
    when that is not longer than [limits.message_max], and otherwise its
    first [message_max] characters. *)
Theorem inbound_text_truncated (cfg : Config) (upd : Update) (msg : Message)
    (bridge : Bridge) (u : TgUser) (w : World) (h : Handle) (t : pystr) :
  message upd = Some msg →
  text msg = Some t →
  t ≠ [] →
  bridge_map w !! str_int (chat_id msg) = Some bridge →
  from_user msg = Some u →
  (get_or_create_irc_user clock create_user cfg u w).1 = Ok h →
  0 ≤ limits_message_max cfg →
  ∃ posted,
    posts (new_calls w (on_telegram_message clock create_user cfg upd w).2)
    = [(irc_channel bridge, posted, h)]
    ∧ posted `prefix_of` t
    ∧ (limits_message_max cfg < Z.of_nat (length t) →
       Z.of_nat (length posted) = limits_message_max cfg)
    ∧ (Z.of_nat (length t) ≤ limits_message_max cfg → posted = t).
Proof.
  intros Hmsg Ht Hne Hbridge Hfrom Hres Hmax.
  assert (Htext : truthy (text msg) = true).
  { rewrite Ht. by destruct t. }
  destruct (on_telegram_message_posts_once clock create_user cfg upd msg
              bridge u w h Hmsg Htext Hbridge Hfrom Hres) as [_ Hposts].
  rewrite Ht in Hposts. simpl in Hposts.
  exists (slice_to (limits_message_max cfg) t). split; [done|].
  rewrite slice_to_nonneg by done. split; [apply prefix_take|]. split.
  - intros Hlong. rewrite length_take. lia.
  - intros Hshort. apply take_ge. lia.
Qed.

(** X (ignored updates).  An update without a message, a message without
    a text or with an empty text, and a message from a chat that is not in
    [bridge_map] are ignored: the handler returns, makes no call, creates
    no user and leaves both tables as they are, with or without a sender. *)
Theorem ignored_updates_change_nothing (cfg : Config) (upd : Update) (w : World) :
  (message upd = None
   ∨ ∃ msg, message upd = Some msg
            ∧ (truthy (text msg) = false
               ∨ bridge_map w !! str_int (chat_id msg) = None)) →
  on_telegram_message clock create_user cfg upd w = (Ok (), w).
Proof.
  unfold on_telegram_message.
  intros [Hnone|(msg & Hmsg & [Htext|Hchat])].
  - by rewrite Hnone.
  - by rewrite Hmsg, Htext.
  - rewrite Hmsg. destruct (truthy (text msg)); simpl; [|done].
    unfold_m. simpl. by rewrite Hchat.
Qed.

(** X (a message without a sender).  For a message with a text, from a
    bridged chat, that has no sender, the handler ends with an
    [AttributeError] at its first use of the sender: it has made no call,
    read no time and changed no table. *)
Theorem senderless_message_raises (cfg : Config) (upd : Update) (msg : Message)
    (bridge : Bridge) (w : World) :
  message upd = Some msg →
  truthy (text msg) = true →
  bridge_map w !! str_int (chat_id msg) = Some bridge →
  from_user msg = None →
  on_telegram_message clock create_user cfg upd w = (Raise AttributeError, w).
Proof.
  intros Hmsg Htext Hbridge Hfrom. unfold on_telegram_message.
  rewrite Hmsg, Htext. unfold_m. simpl. by rewrite Hbridge, Hfrom.
Qed.

Lemma joins_join_all {A} (h : Handle) (ch : A → pystr) (l : list A) :
  joins ((λ x, Join h (ch x)) <$> l) = (λ x, (h, ch x)) <$> l.
Proof. unfold joins. induction l as [|x l IH]; csimpl; [done|]. by rewrite IH. Qed.

(** X (a new identity).  For an id that is not in the table, when
    [irc.create_user] returns a handle: the user is registered with the
    built nickname, the configured ident and host and the built real name;
    it joins the channel of every configured bridge, once for each entry of
    the list and in its order, whatever the chat of the message; its entry
    comes last in the table, with the time read then; one line is logged
    and nothing is posted. *)
Theorem new_identity_joins_every_channel (cfg : Config) (u : TgUser)
    (w : World) (h : Handle) :
  Dict.get (id u) (telegram_users w) = None →
  create_user (calls w) (build_nick_from_telegram u cfg) (identity_ident cfg)
              (identity_host cfg) (build_realname u) = Ok h →
  let w' := (get_or_create_irc_user clock create_user cfg u w).2 in
  (get_or_create_irc_user clock create_user cfg u w).1 = Ok h
  ∧ telegram_users w'
    = telegram_users w
      ++ [(id u, {| user := h; last_seen := clock (clock_reads w) |})]
  ∧ head (new_calls w w')
    = Some (CreateUser (build_nick_from_telegram u cfg) (identity_ident cfg)
              (identity_host cfg) (build_realname u) (Ok h))
  ∧ joins (new_calls w w') = (λ b, (h, irc_channel b)) <$> bridges cfg
  ∧ created (new_calls w w') = [h]
  ∧ logged (new_calls w w')
    = [lit "[telegram] created IRC user: " ++ build_nick_from_telegram u cfg]
  ∧ posts (new_calls w w') = []
  ∧ clock_reads w' = S (clock_reads w).
Proof.
  intros Hget Hres w'. subst w'.
  rewrite (get_or_create_new clock create_user cfg u w h Hget Hres). simpl.
  erewrite new_calls_app by done.
  split; [done|]. split; [by apply dict_set_absent|]. split; [done|].
  split; [|split; [|split; [|split]]]; try done.
  - change (joins (CreateUser ?a ?b ?c ?d ?r :: ?cs)) with (joins cs).
    unfold joins at 1. rewrite omap_app. fold (joins).
    change (omap _ ((λ b, Join h (irc_channel b)) <$> bridges cfg))
      with (joins ((λ b, Join h (irc_channel b)) <$> bridges cfg)).
    rewrite (joins_join_all h irc_channel). simpl. by rewrite app_nil_r.
  - change (created (CreateUser ?a ?b ?c ?d (Ok h) :: ?cs))
      with (h :: created cs).
    by rewrite created_app, (created_joins (λ _, h) irc_channel).
  - change (logged (CreateUser ?a ?b ?c ?d ?r :: ?cs)) with (logged cs).
    unfold logged. rewrite omap_app. simpl.
    induction (bridges cfg) as [|b bs IH]; csimpl; done.
  - change (posts (CreateUser ?a ?b ?c ?d ?r :: ?cs)) with (posts cs).
    by rewrite posts_app, (posts_joins (λ _, h) irc_channel).
Qed.

(** X (other entries).  A message leaves the entries of the other
    participants as they are. *)
Theorem inbound_message_keeps_other_entries (cfg : Config) (upd : Update)
    (w : World) (k : Z) :
  (∀ u, author upd w = Some u → id u ≠ k) →
  Dict.get k (telegram_users (on_telegram_message clock create_user cfg upd w).2)
  = Dict.get k (telegram_users w).
Proof.
  intros Hk. destruct (author upd w) as [u|] eqn:Hauth; cycle 1.
  { by rewrite (author_None_unchanged clock create_user cfg upd w Hauth). }
  specialize (Hk u eq_refl).
  apply author_Some in Hauth as (msg & bridge & Hmsg & Htext & Hbridge & Hfrom).
  destruct (Dict.get (id u) (telegram_users w)) as [e|] eqn:Hget.
  { pose proof (get_or_create_known clock create_user cfg u w e Hget) as Hrun.
    rewrite (on_telegram_message_relay clock create_user cfg upd msg bridge
               u w w (user e)) by done.
    simpl. by apply dict_get_set_ne. }
  destruct (create_user (calls w) (build_nick_from_telegram u cfg)
              (identity_ident cfg) (identity_host cfg) (build_realname u))
    as [h|y] eqn:Hres.
  - pose proof (get_or_create_new clock create_user cfg u w h Hget Hres) as Hrun.
    erewrite (on_telegram_message_relay clock create_user cfg upd msg bridge
                u w _ h) by done.
    simpl. by rewrite !dict_get_set_ne.
  - pose proof (get_or_create_raise clock create_user cfg u w y Hget Hres)
      as Hrun.
    by erewrite (on_telegram_message_raise clock create_user cfg upd msg bridge
                   u w _ y) by done.
Qed.

End MoreProperties.

(** *** What the handlers leave alone *)

Lemma keeps_ret {A} (a : A) : keeps_bridge_map (mret a).
Proof. by intros w. Qed.

Lemma keeps_raise {A} (x : PyExn) : keeps_bridge_map (@raise A x).
Proof. by intros w. Qed.

Lemma keeps_get_world : keeps_bridge_map get_world.
Proof. by intros w. Qed.

Lemma keeps_bind {A B} (m : M A) (k : A → M B) :
  keeps_bridge_map m → (∀ a, keeps_bridge_map (k a)) →
  keeps_bridge_map (m ≫= k).
Proof.
  intros Hm Hk w. unfold mbind, M_bind, bind.
  specialize (Hm w). destruct (m w) as [[a|x] w1]; simpl in *; [|done].
  by rewrite Hk.
Qed.

Lemma keeps_emit (c : Call) : keeps_bridge_map (emit c).
Proof. by intros w. Qed.

Lemma keeps_users_getitem (k : Z) : keeps_bridge_map (users_getitem k).
Proof.
  apply keeps_bind; [apply keeps_get_world|]. intros w.
  destruct (Dict.get k (telegram_users w)); [apply keeps_ret | apply keeps_raise].
Qed.

Lemma keeps_users_setitem (k : Z) (e : Entry) :
  keeps_bridge_map (users_setitem k e).
Proof. by intros w. Qed.

Lemma keeps_users_delitem (k : Z) : keeps_bridge_map (users_delitem k).
Proof. apply keeps_bind; [apply keeps_users_getitem|]. by intros _ w. Qed.

Lemma keeps_for_each {A} (l : list A) (body : A → M unit) :
  (∀ x, keeps_bridge_map (body x)) → keeps_bridge_map (for_each l body).
Proof.
  intros Hbody. induction l as [|x l IH]; simpl; [apply keeps_ret|].
  apply keeps_bind; [apply Hbody | by intros _].
Qed.

Section Frame.

Variable clock : nat → Z.
Variable create_user : list Call → pystr → pystr → pystr → pystr → Result Handle.

Lemma keeps_time_time : keeps_bridge_map (time_time clock).
Proof. by intros w. Qed.

Lemma keeps_get_or_create (cfg : Config) (u : TgUser) :
  keeps_bridge_map (get_or_create_irc_user clock create_user cfg u).
Proof.
  unfold get_or_create_irc_user.
  apply keeps_bind; [apply keeps_get_world|]. intros w.
  destruct (Dict.get (id u) (telegram_users w)); [apply keeps_ret|].
  apply keeps_bind; [by intros w'|]. intros h.
  apply keeps_bind; [apply keeps_for_each; intros b; apply keeps_emit|].
  intros _. apply keeps_bind; [apply keeps_time_time|]. intros now.
  apply keeps_bind; [apply keeps_users_setitem|]. intros _.
  apply keeps_bind; [apply keeps_emit | intros _; apply keeps_ret].
Qed.

Lemma keeps_on_telegram_message (cfg : Config) (upd : Update) :
  keeps_bridge_map (on_telegram_message clock create_user cfg upd).
Proof.
  unfold on_telegram_message. destruct (message upd) as [msg|]; [|apply keeps_ret].
  destruct (negb (truthy (text msg))); [apply keeps_ret|].
  apply keeps_bind; [apply keeps_get_world|]. intros w.
  destruct (bridge_map w !! str_int (chat_id msg)); [|apply keeps_ret].
  apply keeps_bind.
  { destruct (from_user msg); [apply keeps_ret | apply keeps_raise]. }
  intros u. apply keeps_bind; [apply keeps_get_or_create|]. intros h.
  apply keeps_bind; [|intros _; apply keeps_emit].
  unfold touch_last_seen. apply keeps_bind; [apply keeps_time_time|].
  intros now. apply keeps_bind; [apply keeps_users_getitem|].
  intros e. apply keeps_users_setitem.
Qed.

Lemma keeps_on_irc_privmsg (telegram_app : bool) (cfg : Config)
    (source : Source) (target message : pystr) :
  keeps_bridge_map (on_irc_privmsg telegram_app cfg source target message).
Proof.
  unfold on_irc_privmsg. case_decide; [apply keeps_ret|].
  apply keeps_for_each. intros b. case_decide; [|apply keeps_ret].
  destruct telegram_app; [apply keeps_emit | apply keeps_raise].
Qed.

Lemma keeps_teardown : keeps_bridge_map teardown.
Proof.
  unfold teardown. apply keeps_bind; [apply keeps_emit|]. intros _.
  apply keeps_bind; [apply keeps_get_world|]. intros w.
  apply keeps_for_each. intros e. apply keeps_emit.
Qed.

Lemma keeps_cleanup_sweep (cfg : Config) :
  keeps_bridge_map (cleanup_sweep clock cfg).
Proof.
  unfold cleanup_sweep. apply keeps_bind; [apply keeps_time_time|]. intros now.
  apply keeps_bind; [apply keeps_get_world|]. intros w.
  apply keeps_for_each. intros k.
  apply keeps_bind; [apply keeps_users_getitem|]. intros e.
  destruct (now - last_seen e >? cleanup_idle_timeout cfg); [|apply keeps_ret].
  apply keeps_bind; [apply keeps_emit | intros _; apply keeps_users_delitem].
Qed.

Lemma keeps_loop (cfg : Config) (turns : nat) :
  keeps_bridge_map (loop clock cfg turns).
Proof.
  induction turns as [|n IH]; simpl; [apply keeps_ret|].
  apply keeps_bind; [apply keeps_cleanup_sweep | by intros _].
Qed.

(** X (the bridge map at run time).  Neither handler, nor the lookup or
    creation of a user, the sweep, any number of turns of the cleanup loop
    or the teardown changes [bridge_map], whether they return or raise:
    only [build_bridge_map] writes it. *)
Theorem bridge_map_never_changes (cfg : Config) (w : World) :
  (∀ upd, bridge_map (on_telegram_message clock create_user cfg upd w).2
          = bridge_map w)
  ∧ (∀ u, bridge_map (get_or_create_irc_user clock create_user cfg u w).2
          = bridge_map w)
  ∧ (∀ telegram_app source target message,
       bridge_map (on_irc_privmsg telegram_app cfg source target message w).2
       = bridge_map w)
  ∧ bridge_map (cleanup_sweep clock cfg w).2 = bridge_map w
  ∧ (∀ turns, bridge_map (loop clock cfg turns w).2 = bridge_map w)
  ∧ bridge_map (teardown w).2 = bridge_map w.
Proof.
  split; [|split; [|split; [|split; [|split]]]].
  - intros upd. apply keeps_on_telegram_message.
  - intros u. apply keeps_get_or_create.
  - intros telegram_app source target message. apply keeps_on_irc_privmsg.
  - apply keeps_cleanup_sweep.
  - intros turns. apply keeps_loop.
  - apply keeps_teardown.
Qed.

End Frame.

(** A loop that raises for the first item that passes a test and does
    nothing for the others. *)
Lemma for_each_raise_if {A} (P : A → Prop) `{!∀ x, Decision (P x)}
    (x : PyExn) (l : list A) (w : World) :
  for_each l (λ a, if decide (P a) then raise x else mret ()) w
  = (if decide (Exists P l) then Raise x else Ok (), w).
Proof.
  induction l as [|a l IH].
  - destruct (decide (Exists P [])) as [Hex|_]; [|done].
    by apply Exists_nil in Hex.
  - simpl for_each. unfold mbind, M_bind, bind.
    destruct (decide (P a)) as [Ha|Ha].
    + destruct (decide (Exists P (a :: l))) as [_|Hno]; [done|].
      exfalso. apply Hno. by left.
    + unfold mret, M_ret, ret in IH |- *. cbv beta iota. rewrite IH.
      destruct (decide (Exists P l)) as [Hex|Hno],
               (decide (Exists P (a :: l))) as [Hex'|Hno']; try done.
      * exfalso. apply Hno'. by right.
      * exfalso. by apply Exists_cons in Hex' as [?|?].
Qed.

(** X (local messages).  The handler of local messages touches neither
    table nor the clock.  The only calls it makes are calls of
    [bot.send_message] for configured bridges whose channel is, character
    for character, the target; when no bridge has that channel it does
    nothing at all, whether [irc.telegram_app] is there or not.  While
    [irc.telegram_app] is not there, a message from a source that is not
    the relay, to the channel of a configured bridge, makes it raise an
    [AttributeError] before any call. *)
Theorem local_message_only_sends (telegram_app : bool) (cfg : Config)
    (source : Source) (target message : pystr) (w : World) :
  let w' := (on_irc_privmsg telegram_app cfg source target message w).2 in
  telegram_users w' = telegram_users w
  ∧ bridge_map w' = bridge_map w
  ∧ clock_reads w' = clock_reads w
  ∧ (∀ c, c ∈ new_calls w w' →
       ∃ b, b ∈ bridges cfg ∧ irc_channel b = target
            ∧ c = SendMessage (telegram_chat_id b)
                    (lit "<" ++ nick source ++ lit "> " ++ message))
  ∧ ((∀ b, b ∈ bridges cfg → irc_channel b ≠ target) →
     on_irc_privmsg telegram_app cfg source target message w = (Ok (), w))
  ∧ (telegram_app = false →
     ident source ≠ identity_ident cfg →
     (∃ b, b ∈ bridges cfg ∧ irc_channel b = target) →
     on_irc_privmsg telegram_app cfg source target message w
     = (Raise AttributeError, w)).
Proof.
  intros w'. subst w'.
  destruct (decide (ident source = identity_ident cfg)) as [Hrelay|Hother].
  { assert (Hrun : on_irc_privmsg telegram_app cfg source target message w
                   = (Ok (), w)).
    { unfold on_irc_privmsg. by rewrite decide_True. }
    rewrite Hrun. simpl. rewrite new_calls_refl.
    repeat split; try done. by intros c ?%elem_of_nil. }
  destruct telegram_app.
  - rewrite (on_irc_privmsg_relay cfg source target message w Hother). simpl.
    erewrite new_calls_app by done.
    split; [done|]. split; [done|]. split; [done|]. split; [|split; [|done]].
    + intros c (b & -> & Hb)%list_elem_of_fmap.
      apply list_elem_of_filter in Hb as [Hch Hb]. by exists b.
    + intros Hnone.
      assert (Hfilter : filter (λ b, target = irc_channel b) (bridges cfg) = []).
      { destruct (filter _ (bridges cfg)) as [|b bs] eqn:Hf; [done|]. exfalso.
        assert (Hb : b ∈ filter (λ b, target = irc_channel b) (bridges cfg))
          by (rewrite Hf; left).
        apply list_elem_of_filter in Hb as [Hch Hb]. by apply (Hnone b). }
      rewrite Hfilter. simpl. rewrite app_nil_r. by destruct w.
  - assert (Hrun : on_irc_privmsg false cfg source target message w
                   = (if decide (Exists (λ b, target = irc_channel b)
                                        (bridges cfg))
                      then Raise AttributeError else Ok (), w)).
    { unfold on_irc_privmsg. rewrite decide_False by done.
      apply (for_each_raise_if (λ b, target = irc_channel b)). }
    rewrite Hrun. simpl. rewrite new_calls_refl.
    split; [done|]. split; [done|]. split; [done|].
    split; [by intros c ?%elem_of_nil|]. split.
    + intros Hnone. rewrite decide_False; [done|].
      intros (b & Hb & Hch)%Exists_exists. by apply (Hnone b).
    + intros _ _ (b & Hb & Hch). rewrite decide_True; [done|].
      apply Exists_exists. by exists b.
Qed.

(** *** The bridge map *)

(** The bridge under a key after a list of bridges was added: the last one
    of the list with that key, and what was there before when the list has
    none. *)
Lemma foldl_add_bridge_lookup (bs : list Bridge) (m : gmap pystr Bridge)
    (k : pystr) :
  foldl add_bridge m bs !! k
  = match last (filter (λ b, str_chat_id (telegram_chat_id b) = k) bs) with
    | Some b => Some b
    | None => m !! k
    end.
Proof.
  induction bs as [|b bs IH] using rev_ind; [done|].
  rewrite foldl_app, filter_app. simpl. rewrite filter_cons, filter_nil.
  unfold add_bridge at 1.
  destruct (decide (str_chat_id (telegram_chat_id b) = k)) as [Hk|Hk].
  - rewrite last_snoc, Hk. apply lookup_insert_eq.
  - rewrite app_nil_r, lookup_insert_ne by done. apply IH.
Qed.

(** X (what the bridge map holds).  After [build_bridge_map] a key holds
    the last bridge of the configuration whose chat id has that string
    form; a key that no configured chat id has keeps what it held before,
    so entries left from an earlier configuration are not removed.  The
    tables of users, the calls and the clock are not touched. *)
Theorem build_bridge_map_lookup (cfg : Config) (w : World) (k : pystr) :
  let w' := (build_bridge_map cfg w).2 in
  (build_bridge_map cfg w).1 = Ok ()
  ∧ bridge_map w' !! k
    = match last (filter (λ b, str_chat_id (telegram_chat_id b) = k)
                         (bridges cfg)) with
      | Some b => Some b
      | None => bridge_map w !! k
      end
  ∧ ((∀ b, b ∈ bridges cfg → str_chat_id (telegram_chat_id b) ≠ k) →
     bridge_map w' !! k = bridge_map w !! k)
  ∧ telegram_users w' = telegram_users w
  ∧ calls w' = calls w
  ∧ clock_reads w' = clock_reads w.
Proof.
  intros w'. subst w'. rewrite build_bridge_map_run. simpl.
  split; [done|]. split; [apply foldl_add_bridge_lookup|].
  split; [|done]. intros Hnone. by apply foldl_add_bridge_other.
Qed.

(** X (building twice).  Building the bridge map a second time from the
    same configuration changes nothing. *)
Theorem build_bridge_map_idempotent (cfg : Config) (w : World) :
  build_bridge_map cfg (build_bridge_map cfg w).2
  = (Ok (), (build_bridge_map cfg w).2).
Proof.
  rewrite !build_bridge_map_run. simpl. unfold with_bridge_map. simpl.
  do 2 f_equal. apply map_eq. intros k.
  rewrite !foldl_add_bridge_lookup.
  by destruct (last _).
Qed.

(** X (distinct chats).  When the chat ids of the configuration are ints
    and no int is listed twice, every configured bridge is the one found
    for its chat: no bridge hides another. *)
Theorem distinct_chat_ids_all_routed (cfg : Config) (w : World) :
  (∀ b, b ∈ bridges cfg → ∃ n, telegram_chat_id b = ChatInt n) →
  NoDup (telegram_chat_id <$> bridges cfg) →
  ∀ b n, b ∈ bridges cfg → telegram_chat_id b = ChatInt n →
    bridge_map (build_bridge_map cfg w).2 !! str_int n = Some b.
Proof.
  intros Hints Hnd b n Hb Hn. rewrite build_bridge_map_run. simpl.
  apply list_elem_of_split in Hb as (l1 & l2 & Hsplit).
  rewrite Hsplit in Hnd, Hints |- *.
  rewrite foldl_app. simpl. rewrite foldl_add_bridge_other.
  - unfold add_bridge. rewrite Hn. simpl. apply lookup_insert_eq.
  - intros b' Hb' Hkey.
    destruct (Hints b') as [n' Hn'].
    { apply elem_of_app. right. by right. }
    rewrite Hn' in Hkey. simpl in Hkey. apply str_int_inj in Hkey. subst n'.
    rewrite fmap_app, fmap_cons in Hnd.
    apply NoDup_app in Hnd as (_ & _ & Hnd).
    apply NoDup_cons in Hnd as [Hnotin _].
    apply Hnotin. rewrite Hn, <- Hn'. by apply list_elem_of_fmap_2.
Qed.

(** *** The sweep, the teardown and the messages, one after the other *)

Lemma teardown_run (w : World) :
  teardown w
  = (Ok (),
     {| telegram_users := telegram_users w;
        bridge_map := bridge_map w;
        calls := calls w
          ++ LogInfo (lit "[telegram] plugin unloaded")
             :: ((λ kv, Quit (user kv.2) (lit "Telegram relay shutdown"))
                 <$> telegram_users w);
        clock_reads := clock_reads w |}).
Proof.
  unfold teardown, mbind, M_bind, bind, get_world.
  change (emit ?c w) with (Ok (), with_call c w).
  cbv beta iota. rewrite for_each_emit. simpl. do 2 f_equal.
  rewrite <- app_assoc. simpl. do 2 f_equal.
  unfold Dict.values. by rewrite <- list_fmap_compose.
Qed.

Lemma dict_get_elem_of {V} (k : Z) (v : V) (d : list (Z * V)) :
  Dict.get k d = Some v → (k, v) ∈ d.
Proof.
  induction d as [|[k' v'] d IH]; simpl; [done|].
  destruct (decide (k = k')) as [->|Hne].
  - intros [= ->]. left.
  - intros Hget. right. by apply IH.
Qed.

Lemma filter_all_true {A} (P : A → Prop) `{!∀ x, Decision (P x)} (l : list A) :
  (∀ x, P x) → filter P l = l.
Proof.
  intros HP. induction l as [|x l IH]; [done|].
  by rewrite filter_cons_True, IH.
Qed.

Section Sequences.

Variable clock : nat → Z.
Variable create_user : list Call → pystr → pystr → pystr → pystr → Result Handle.

Lemma get_or_create_wf (cfg : Config) (u : TgUser) (w : World) :
  Dict.wf (telegram_users w) →
  Dict.wf (telegram_users (get_or_create_irc_user clock create_user cfg u w).2).
Proof.
  intros Hwf. destruct (Dict.get (id u) (telegram_users w)) as [e|] eqn:Hget.
  { by rewrite (get_or_create_known clock create_user cfg u w e Hget). }
  destruct (create_user (calls w) (build_nick_from_telegram u cfg)
              (identity_ident cfg) (identity_host cfg) (build_realname u))
    as [h|y] eqn:Hres.
  - rewrite (get_or_create_new clock create_user cfg u w h Hget Hres). simpl.
    by apply dict_wf_set.
  - by rewrite (get_or_create_raise clock create_user cfg u w y Hget Hres).
Qed.

(** X (activity keeps an identity).  After a message was relayed, the
    entry of its author holds the time the handler read last; a sweep that
    reads a time at most [idle_timeout] later keeps that entry. *)
Theorem relayed_author_survives_sweep (cfg : Config) (upd : Update)
    (u : TgUser) (w : World) :
  Dict.wf (telegram_users w) →
  author upd w = Some u →
  (on_telegram_message clock create_user cfg upd w).1 = Ok () →
  let w1 := (on_telegram_message clock create_user cfg upd w).2 in
  let seen := clock (Nat.pred (clock_reads w1)) in
  clock (clock_reads w1) - seen ≤ cleanup_idle_timeout cfg →
  ∃ e, Dict.get (id u) (telegram_users w1) = Some e
       ∧ last_seen e = seen
       ∧ Dict.get (id u) (telegram_users (cleanup_sweep clock cfg w1).2) = Some e.
Proof.
  intros Hwf (msg & bridge & Hmsg & Htext & Hbridge & Hfrom)%author_Some.
  pose proof (get_or_create_wf cfg u w Hwf) as Hwf0.
  destruct (get_or_create_irc_user clock create_user cfg u w) as [[h|y] w0]
    eqn:Hrun; cycle 1.
  { by rewrite (on_telegram_message_raise clock create_user cfg upd msg bridge
                  u w w0 y). }
  rewrite (on_telegram_message_relay clock create_user cfg upd msg bridge
             u w w0 h) by done.
  simpl. intros _ Hfresh.
  exists {| user := h; last_seen := clock (clock_reads w0) |}.
  split; [apply dict_get_set_eq|]. split; [done|].
  rewrite cleanup_sweep_run; simpl; [|by apply dict_wf_set].
  erewrite dict_get_filter;
    [| by apply dict_wf_set | apply dict_get_set_eq].
  simpl. rewrite decide_True; [done | lia].
Qed.

(** X (an evicted participant).  A sweep that finds an entry idle departs
    its user and deletes it, so the next lookup for that id calls
    [irc.create_user] again and returns what that call gives: the handle is
    not kept across an eviction. *)
Theorem evicted_author_is_created_again (cfg : Config) (u : TgUser)
    (w : World) (e : Entry) :
  Dict.wf (telegram_users w) →
  Dict.get (id u) (telegram_users w) = Some e →
  cleanup_idle_timeout cfg < clock (clock_reads w) - last_seen e →
  let w1 := (cleanup_sweep clock cfg w).2 in
  let res := create_user (calls w1) (build_nick_from_telegram u cfg)
               (identity_ident cfg) (identity_host cfg) (build_realname u) in
  (user e, lit "Telegram idle timeout") ∈ quits (new_calls w w1)
  ∧ Dict.get (id u) (telegram_users w1) = None
  ∧ (get_or_create_irc_user clock create_user cfg u w1).1 = res
  ∧ head (new_calls w1 (get_or_create_irc_user clock create_user cfg u w1).2)
    = Some (CreateUser (build_nick_from_telegram u cfg) (identity_ident cfg)
              (identity_host cfg) (build_realname u) res).
Proof.
  intros Hwf Hget Hidle w1 res. subst w1 res.
  rewrite (cleanup_sweep_run clock cfg w Hwf). cbn [fst snd].
  erewrite new_calls_app by done.
  set (w1 := {| telegram_users := _ |}).
  assert (Hgone : Dict.get (id u) (telegram_users w1) = None).
  { subst w1. simpl. rewrite (dict_get_filter _ (id u) e) by done. simpl.
    rewrite decide_False; [done | lia]. }
  split; [|split; [done|]].
  - rewrite quits_fmap_quit.
    apply (list_elem_of_fmap_2' _ _ (id u, e)); [|done].
    apply list_elem_of_filter. split; [done|]. by apply dict_get_elem_of.
  - destruct (create_user (calls w1) (build_nick_from_telegram u cfg)
                (identity_ident cfg) (identity_host cfg) (build_realname u))
      as [h|y] eqn:Hres.
    + rewrite (get_or_create_new clock create_user cfg u w1 h Hgone Hres).
      simpl. by erewrite new_calls_app by done.
    + rewrite (get_or_create_raise clock create_user cfg u w1 y Hgone Hres).
      simpl. by erewrite new_calls_app by done.
Qed.

(** X (a message after the teardown).  The teardown departs a stored user
    and keeps its entry, so a later message of that participant from a
    bridged chat is posted as the handle that was departed, and no user is
    created. *)
Theorem message_after_teardown_uses_departed_handle (cfg : Config)
    (upd : Update) (msg : Message) (bridge : Bridge) (u : TgUser) (w : World)
    (e : Entry) :
  message upd = Some msg →
  truthy (text msg) = true →
  bridge_map w !! str_int (chat_id msg) = Some bridge →
  from_user msg = Some u →
  Dict.get (id u) (telegram_users w) = Some e →
  let w1 := (teardown w).2 in
  let w2 := (on_telegram_message clock create_user cfg upd w1).2 in
  (user e, lit "Telegram relay shutdown") ∈ quits (new_calls w w1)
  ∧ (on_telegram_message clock create_user cfg upd w1).1 = Ok ()
  ∧ new_calls w1 w2
    = [SendPrivmsg (irc_channel bridge)
         (slice_to (limits_message_max cfg) (default [] (text msg))) (user e)].
Proof.
  intros Hmsg Htext Hbridge Hfrom Hget w1 w2. subst w2 w1.
  rewrite teardown_run. cbn [fst snd]. erewrite new_calls_app by done.
  set (w1 := {| telegram_users := _ |}).
  assert (Hget1 : Dict.get (id u) (telegram_users w1) = Some e) by done.
  pose proof (get_or_create_known clock create_user cfg u w1 e Hget1) as Hrun.
  rewrite (on_telegram_message_relay clock create_user cfg upd msg bridge
             u w1 w1 (user e)) by done.
  cbn [fst snd]. erewrite new_calls_app by done.
  split; [|done].
  change (quits (LogInfo ?l :: ?cs)) with (quits cs).
  rewrite quits_fmap_quit.
  apply (list_elem_of_fmap_2' _ _ (id u, e)); [|done].
  by apply dict_get_elem_of.
Qed.

(** X (sweep, then teardown).  When a sweep is followed by the teardown,
    every entry that was in the table is departed exactly once: the idle
    ones by the sweep with the idle reason, the others by the teardown with
    the shutdown reason. *)
Theorem sweep_then_teardown_departs_each_once (cfg : Config) (w : World) :
  Dict.wf (telegram_users w) →
  let idle (kv : Z * Entry) :=
    cleanup_idle_timeout cfg < clock (clock_reads w) - last_seen kv.2 in
  let w1 := (cleanup_sweep clock cfg w).2 in
  let w2 := (teardown w1).2 in
  quits (new_calls w w2)
  = ((λ kv, (user kv.2, lit "Telegram idle timeout"))
     <$> filter idle (telegram_users w))
    ++ ((λ kv, (user kv.2, lit "Telegram relay shutdown"))
        <$> filter (λ kv, ¬ idle kv) (telegram_users w))
  ∧ (quits (new_calls w w2)).*1 ≡ₚ (λ kv, user kv.2) <$> telegram_users w.
Proof.
  intros Hwf idle w1 w2. subst w2 w1.
  rewrite (cleanup_sweep_run clock cfg w Hwf). cbn [fst snd].
  rewrite teardown_run. cbn [fst snd calls telegram_users].
  erewrite new_calls_app by (by rewrite <- app_assoc).
  assert (Hquits : quits
      (((λ kv, Quit (user kv.2) (lit "Telegram idle timeout"))
        <$> filter idle (telegram_users w))
       ++ LogInfo (lit "[telegram] plugin unloaded")
          :: ((λ kv, Quit (user kv.2) (lit "Telegram relay shutdown"))
              <$> filter (λ kv, ¬ idle kv) (telegram_users w)))
    = ((λ kv, (user kv.2, lit "Telegram idle timeout"))
       <$> filter idle (telegram_users w))
      ++ ((λ kv, (user kv.2, lit "Telegram relay shutdown"))
          <$> filter (λ kv, ¬ idle kv) (telegram_users w))).
  { unfold quits at 1. rewrite omap_app.
    change (omap ?f (LogInfo ?l :: ?cs)) with (omap f cs).
    fold (quits). by rewrite !quits_fmap_quit. }
  subst idle. cbv beta in *. split; [exact Hquits|].
  rewrite Hquits, fmap_app, <- !list_fmap_compose.
  rewrite <- fmap_app. apply fmap_Permutation, filter_app_complement.
Qed.

(** What the turns of the cleanup loop do, when the keys are distinct. *)
Lemma loop_run (cfg : Config) (turns : nat) (w : World) :
  Dict.wf (telegram_users w) →
  ∃ cs,
    loop clock cfg turns w
    = (Ok (),
       {| telegram_users :=
            filter (λ kv, Forall (λ i, clock (clock_reads w + i)%nat
                                       - last_seen kv.2
                                       ≤ cleanup_idle_timeout cfg)
                                 (seq 0 turns))
                   (telegram_users w);
          bridge_map := bridge_map w;
          calls := calls w ++ cs;
          clock_reads := (clock_reads w + turns)%nat |})
    ∧ Forall (λ c, ∃ h, c = Quit h (lit "Telegram idle timeout")) cs.
Proof.
  revert w. induction turns as [|n IH]; intros w Hwf.
  - exists []. split; [|done]. simpl. unfold_m.
    rewrite app_nil_r, Nat.add_0_r, filter_all_true by (intros kv; constructor).
    by destruct w.
  - simpl loop. unfold mbind, M_bind, bind.
    rewrite (cleanup_sweep_run clock cfg w Hwf).
    set (w1 := {| telegram_users := _ |}).
    destruct (IH w1) as (cs & Hrun & Hcs).
    { subst w1. simpl. by apply dict_wf_filter. }
    rewrite Hrun. subst w1. simpl.
    eexists. split.
    + f_equal. f_equal.
      * rewrite list_filter_filter. apply list_filter_iff. intros kv.
        rewrite Forall_cons, Nat.add_0_r.
        rewrite <- (fmap_S_seq 0 n), Forall_fmap. unfold compose.
        split.
        -- intros [Hrest Hnow]. split; [lia|].
           eapply Forall_impl; [exact Hrest|]. intros i Hi.
           cbv beta in Hi |- *. by rewrite Nat.add_succ_r.
        -- intros [Hnow Hrest]. split; [|lia].
           eapply Forall_impl; [exact Hrest|]. intros i Hi.
           cbv beta in Hi. by rewrite Nat.add_succ_r in Hi.
      * by rewrite <- app_assoc.
      * lia.
    + apply Forall_app. split; [|done].
      apply Forall_fmap, Forall_forall. intros kv _. simpl. by eexists.
Qed.

(** X (the cleanup loop).  When each [irc.quit] returns, after however
    many turns of the loop the table holds the entries found fresh at each
    of the times read, unchanged and in their order, with distinct keys;
    the time was read once for each turn, and the calls made are calls of
    [irc.quit] with the idle reason and nothing else. *)
Theorem cleanup_loop_keeps_fresh_entries (cfg : Config) (turns : nat)
    (w : World) :
  Dict.wf (telegram_users w) →
  let w' := (loop clock cfg turns w).2 in
  telegram_users w'
  = filter (λ kv, Forall (λ i, clock (clock_reads w + i)%nat
                               - last_seen kv.2
                               ≤ cleanup_idle_timeout cfg)
                         (seq 0 turns))
           (telegram_users w)
  ∧ Dict.wf (telegram_users w')
  ∧ clock_reads w' = (clock_reads w + turns)%nat
  ∧ Forall (λ c, ∃ h, c = Quit h (lit "Telegram idle timeout")) (new_calls w w').
Proof.
  intros Hwf w'. subst w'.
  destruct (loop_run cfg turns w Hwf) as (cs & Hrun & Hcs).
  rewrite Hrun. simpl. erewrite new_calls_app by done.
  split; [done|]. split; [by apply dict_wf_filter|]. done.
Qed.

End Sequences.

(** *** [setup] *)

Lemma setup_enabled_run (pc : PluginConfig) (irc : Host) :
  enabled pc = true →
  setup (Some pc) irc
  = {| world :=
         {| telegram_users := telegram_users (world irc);
            bridge_map := foldl add_bridge (bridge_map (world irc))
                                (bridges (settings pc));
            calls := calls (world irc)
                     ++ [LogInfo (lit "[telegram] plugin loaded")];
            clock_reads := clock_reads (world irc) |};
       telegram_cfg := Some (settings pc);
       host_calls := host_calls irc ++ setup_calls (settings pc) |}.
Proof.
  intros Hen. unfold setup, setup_calls. rewrite Hen, build_bridge_map_run.
  simpl. do 2 f_equal.
  destruct (Z.gtb_spec (cleanup_idle_timeout (settings pc)) 0).
  - by rewrite decide_True.
  - by rewrite decide_False by lia.
Qed.

(** X (a plugin that is not enabled).  Without a configuration for the
    plugin, or with one that is not enabled, [setup] logs one line and does
    nothing else: no hook, no thread, no configuration attached, both
    tables and the clock as before. *)
Theorem setup_disabled_is_inert (config : option PluginConfig) (irc : Host) :
  (config = None ∨ ∃ pc, config = Some pc ∧ enabled pc = false) →
  let irc' := setup config irc in
  host_calls irc' = host_calls irc
  ∧ telegram_cfg irc' = telegram_cfg irc
  ∧ telegram_users (world irc') = telegram_users (world irc)
  ∧ bridge_map (world irc') = bridge_map (world irc)
  ∧ clock_reads (world irc') = clock_reads (world irc)
  ∧ new_calls (world irc) (world irc')
    = [LogInfo (lit "[telegram] plugin disabled")].
Proof.
  intros Hoff irc'.
  assert (Hrun : irc'
    = {| world := with_call (LogInfo (lit "[telegram] plugin disabled"))
                            (world irc);
         telegram_cfg := telegram_cfg irc;
         host_calls := host_calls irc |}).
  { subst irc'. destruct Hoff as [->|(pc & -> & Hen)]; [done|].
    unfold setup. by rewrite Hen. }
  rewrite Hrun. simpl.
  split; [done|]. split; [done|]. split; [done|]. split; [done|].
  split; [done|]. by apply new_calls_app.
Qed.

(** X (an enabled plugin).  With an enabled configuration [setup] attaches
    it to [irc], logs one line, adds the bridges of the configuration to
    the bridge map, registers the PRIVMSG hook once and starts the bot
    thread; it starts the cleanup thread exactly when the idle timeout is
    positive.  The table of users is not touched. *)
Theorem setup_enabled_starts_relay (pc : PluginConfig) (irc : Host) :
  enabled pc = true →
  let cfg := settings pc in
  let irc' := setup (Some pc) irc in
  let started := drop (length (host_calls irc)) (host_calls irc') in
  telegram_cfg irc' = Some cfg
  ∧ AddHook (lit "PRIVMSG") :: StartThread BotThread :: [] `prefix_of` started
  ∧ (StartThread CleanupThread ∈ started ↔ 0 < cleanup_idle_timeout cfg)
  ∧ length (filter (λ c, c = AddHook (lit "PRIVMSG")) started) = 1%nat
  ∧ length (filter (λ c, c = StartThread BotThread) started) = 1%nat
  ∧ new_calls (world irc) (world irc')
    = [LogInfo (lit "[telegram] plugin loaded")]
  ∧ telegram_users (world irc') = telegram_users (world irc)
  ∧ bridge_map (world irc')
    = foldl add_bridge (bridge_map (world irc)) (bridges cfg).
Proof.
  intros Hen cfg irc' started. subst started irc' cfg.
  rewrite (setup_enabled_run pc irc Hen). simpl.
  rewrite drop_app_length. unfold setup_calls.
  split; [done|]. split; [by apply prefix_app_r|].
  case_decide as Hpos; simpl.
  - split; [|by repeat split; try apply new_calls_app].
    split; [done|]. intros _. do 2 right. left.
  - split; [|by repeat split; try apply new_calls_app].
    split; [|done].
    intros [?|[?|?%elem_of_nil]%elem_of_cons]%elem_of_cons; done.
Qed.

(** X (a second [setup]).  Nothing guards [setup] against running twice:
    with the same enabled configuration the second run registers the hook
    and starts the threads again and logs again, and leaves the bridge map
    as the first run made it. *)
Theorem setup_twice_registers_twice (pc : PluginConfig) (irc : Host) :
  enabled pc = true →
  let once := setup (Some pc) irc in
  let twice := setup (Some pc) once in
  host_calls twice
  = host_calls irc ++ setup_calls (settings pc) ++ setup_calls (settings pc)
  ∧ bridge_map (world twice) = bridge_map (world once)
  ∧ telegram_users (world twice) = telegram_users (world irc)
  ∧ new_calls (world irc) (world twice)
    = [LogInfo (lit "[telegram] plugin loaded");
       LogInfo (lit "[telegram] plugin loaded")].
Proof.
  intros Hen once twice. subst twice once.
  rewrite (setup_enabled_run pc (setup (Some pc) irc) Hen).
  rewrite (setup_enabled_run pc irc Hen). simpl.
  split; [by rewrite <- app_assoc|]. split; [|split; [done|]].
  - apply map_eq. intros k. rewrite !foldl_add_bridge_lookup.
    by destruct (last _).
  - apply new_calls_app. simpl. by rewrite <- app_assoc.
Qed.

(** * The properties on the sample data *)

Transparent lit str_int.

Module Checks.
Import Sample.

Lemma wf_by_compute (t : list (Z * Entry)) :
  bool_decide (NoDup (Dict.keys t)) = true → Dict.wf t.
Proof. apply bool_decide_eq_true_1. Qed.



(** C2 on a message whose source has the relay ident, in a bridged channel. *)
Lemma anti_loop_no_send_witness :
  let relayed := {| ident := lit "tgrelay"; nick := lit "alice/tg" |} in
  let w := world_with [] cfg in
  ident relayed = identity_ident cfg
  ∧ on_irc_privmsg true cfg relayed (lit "#a") (lit "hello") w = (Ok (), w)
  ∧ sends (new_calls w
             (on_irc_privmsg true cfg relayed (lit "#a") (lit "hello") w).2)
    = [].
Proof.
  intros relayed w.
  assert (Hident : ident relayed = identity_ident cfg) by reflexivity.
  split; [done|].
  exact (anti_loop_no_send true cfg relayed (lit "#a") (lit "hello") w Hident).
Defined.



(** C4 does not hold as stated: with an entry last seen at 0 and a clock
    that reads 100, the call returns the stored handle and leaves the
    world, hence [last_seen], as it was. *)
Lemma existing_identity_counterexample :
  ticking 0 = 100
  ∧ get_or_create_irc_user ticking accepting cfg alice
      (world_with [(42, {| user := 5%nat; last_seen := 0 |})] cfg)
    = (Ok 5%nat, world_with [(42, {| user := 5%nat; last_seen := 0 |})] cfg)
  ∧ Dict.get 42 (telegram_users
      (get_or_create_irc_user ticking accepting cfg alice
         (world_with [(42, {| user := 5%nat; last_seen := 0 |})] cfg)).2)
    = Some {| user := 5%nat; last_seen := 0 |}.
Proof. repeat split. Qed.

(** C4 as amended, on the same entry: the handler sets [last_seen]. *)
Lemma existing_identity_reused_witness :
  let w := world_with [(42, {| user := 5%nat; last_seen := 0 |})] cfg in
  let upd := update_from 7 alice "hello" in
  get_or_create_irc_user ticking accepting cfg alice w = (Ok 5%nat, w)
  ∧ Dict.get 42 (telegram_users (on_telegram_message ticking accepting cfg upd w).2)
    = Some {| user := 5%nat; last_seen := 100 |}
  ∧ new_calls w (on_telegram_message ticking accepting cfg upd w).2
    = [SendPrivmsg (lit "#a") (lit "hello") 5%nat].
Proof.
  intros w upd.
  assert (Hget : Dict.get (id alice) (telegram_users w)
                 = Some {| user := 5%nat; last_seen := 0 |}) by reflexivity.
  destruct (existing_identity_reused ticking accepting cfg alice w _ Hget)
    as [Hcall Hmsg].
  split; [exact Hcall|].
  destruct (Hmsg upd (message_from 7 alice "hello") bridge_a
              eq_refl eq_refl eq_refl eq_refl)
    as (_ & Hseen & _ & Hcalls).
  split; [exact Hseen | exact Hcalls].
Defined.

(** C5 with [idle_timeout = 3600] and a sweep at 3601: the entry last seen
    at 0, 3601 seconds before, is departed and deleted; the entry last seen
    at 2, 3599 seconds before, stays. *)
Lemma idle_eviction_boundary_witness :
  let w := world_with [(1, {| user := 10%nat; last_seen := 0 |});
                       (2, {| user := 11%nat; last_seen := 2 |})] cfg in
  let w' := (cleanup_sweep (λ _, 3601) cfg w).2 in
  Dict.wf (telegram_users w)
  ∧ cleanup_idle_timeout cfg = 3600
  ∧ Dict.get 1 (telegram_users w') = None
  ∧ (10%nat, lit "Telegram idle timeout") ∈ quits (new_calls w w')
  ∧ Dict.get 2 (telegram_users w') = Some {| user := 11%nat; last_seen := 2 |}
  ∧ new_calls w w' = [Quit 10%nat (lit "Telegram idle timeout")].
Proof.
  intros w w'.
  assert (Hwf : Dict.wf (telegram_users w)) by (by apply wf_by_compute).
  pose proof (idle_eviction_boundary (λ _, 3601) cfg w Hwf) as H.
  cbv zeta in H. destruct H as (_ & _ & Hcalls & Hbound).
  destruct (Hbound 1 {| user := 10%nat; last_seen := 0 |} eq_refl) as [Hold _].
  destruct (Hbound 2 {| user := 11%nat; last_seen := 2 |} eq_refl) as [_ Hnew].
  split; [done|]. split; [done|].
  split; [apply Hold; by vm_compute|]. split; [apply Hold; by vm_compute|].
  split; [apply Hnew; by vm_compute|]. exact Hcalls.
Defined.

(** C6 with [nick_max = 9]: the name [alice_in_chains/tg] of 18 characters
    is cut to its first 9. *)
Lemma build_nick_truncation_witness :
  0 ≤ limits_nick_max cfg
  ∧ sanitize_irc_name (nick_base alice) ++ lit "/" ++ identity_suffix cfg
    = lit "alice_in_chains/tg"
  ∧ build_nick_from_telegram alice cfg = lit "alice_in_"
  ∧ Z.of_nat (length (build_nick_from_telegram alice cfg)) = 9.
Proof.
  assert (Hmax : 0 ≤ limits_nick_max cfg) by (by vm_compute).
  pose proof (build_nick_truncation alice cfg Hmax) as H.
  cbv zeta in H. destruct H as [Hlong _].
  destruct Hlong as (Hlen & _ & Htake); [by vm_compute|].
  split; [done|]. split; [by vm_compute|]. split; [|exact Hlen].
  rewrite Htake. by vm_compute.
Defined.

(** C7 on a profile without names and on a username of emoji. *)
Lemma naming_fallback_nonempty_witness :
  nick_base {| id := 1234; username := None;
               first_name := None; last_name := Some [] |} = lit "tg1234"
  ∧ sanitize_irc_name
      (nick_base {| id := 1234; username := Some [128512; 128512; 128512]%N;
                    first_name := None; last_name := None |}) = lit "TGUser".
Proof.
  split.
  - by apply (naming_fallback_nonempty
                {| id := 1234; username := None;
                   first_name := None; last_name := Some [] |}).
  - by apply (naming_fallback_nonempty
                {| id := 1234; username := Some [128512; 128512; 128512]%N;
                   first_name := None; last_name := None |}).
Defined.

(** C8 does not hold as stated: when the network rejects the user, the
    handler ends with the exception of [create_user], and logs nothing. *)
Lemma registration_failure_counterexample :
  (on_telegram_message ticking rejecting cfg (update_from 7 alice "hello")
     (world_with [] cfg)).1 = Raise (IrcError 433)
  ∧ logged (new_calls (world_with [] cfg)
              (on_telegram_message ticking rejecting cfg
                 (update_from 7 alice "hello") (world_with [] cfg)).2) = [].
Proof. split; by vm_compute. Qed.

(** C8 as amended, on the same message. *)
Lemma registration_failure_propagates_witness :
  let w := world_with [] cfg in
  let w' := (on_telegram_message ticking rejecting cfg
               (update_from 7 alice "hello") w).2 in
  (on_telegram_message ticking rejecting cfg (update_from 7 alice "hello") w).1
  = Raise (IrcError 433)
  ∧ telegram_users w' = []
  ∧ posts (new_calls w w') = []
  ∧ new_calls w w'
    = [CreateUser (lit "alice_in_") (lit "tgrelay") (lit "telegram.bridge")
         (lit "Telegram @alice_in_chains") (Raise (IrcError 433))].
Proof.
  intros w w'.
  pose proof (registration_failure_propagates ticking rejecting cfg
                (update_from 7 alice "hello") (message_from 7 alice "hello")
                bridge_a alice w (IrcError 433)
                eq_refl eq_refl eq_refl eq_refl eq_refl eq_refl) as H.
  cbv zeta in H. destruct H as (Hres & Husers & _ & _ & Hcalls & Hposts & _).
  split; [exact Hres|]. split; [exact Husers|]. split; [exact Hposts|].
  subst w'. rewrite Hcalls. by vm_compute.
Defined.

(** C9 on a table of two users. *)
Lemma teardown_quits_all_keeps_table_witness :
  let t := [(1, {| user := 10%nat; last_seen := 0 |});
            (2, {| user := 11%nat; last_seen := 2 |})] in
  telegram_users (teardown (world_with t cfg)).2 = t
  ∧ quits (new_calls (world_with t cfg) (teardown (world_with t cfg)).2)
    = [(10%nat, lit "Telegram relay shutdown");
       (11%nat, lit "Telegram relay shutdown")].
Proof.
  intros t.
  pose proof (teardown_quits_all_keeps_table (world_with t cfg)) as H.
  cbv zeta in H. destruct H as (_ & Husers & _ & _ & Hquits & _).
  split; [exact Husers | exact Hquits].
Defined.

(** C10 on a configuration that names chat 7 twice: the second bridge is
    the one stored, and a message from chat 7 is posted to its channel
    only. *)
Lemma duplicate_chat_id_last_wins_witness :
  let c := cfg_with [bridge_a; bridge_a_again; bridge_b] in
  let wb := (build_bridge_map c loaded).2 in
  let w' := (on_telegram_message ticking accepting c
               (update_from 7 alice "hello") wb).2 in
  str_chat_id (telegram_chat_id bridge_a)
  = str_chat_id (telegram_chat_id bridge_a_again)
  ∧ bridge_map wb !! lit "7" = Some bridge_a_again
  ∧ posts (new_calls wb w') = [(lit "#c", lit "hello", 0%nat)].
Proof.
  intros c wb w'.
  assert (Hbs : bridges c = [bridge_a] ++ bridge_a_again :: [bridge_b])
    by reflexivity.
  assert (Hlast : ∀ b', b' ∈ [bridge_b] →
            str_chat_id (telegram_chat_id b')
            ≠ str_chat_id (telegram_chat_id bridge_a_again)).
  { intros b' ->%list_elem_of_singleton. by vm_compute. }
  pose proof (duplicate_chat_id_last_wins ticking accepting c loaded
                [bridge_a] [bridge_b] bridge_a_again Hbs Hlast) as H.
  cbv zeta in H. destruct H as (_ & Hstored & _ & _ & Hposted).
  split; [by vm_compute|]. split; [exact Hstored|].
  destruct (Hposted wb (update_from 7 alice "hello")
              (message_from 7 alice "hello") eq_refl eq_refl)
    as [_ Honce]; [by vm_compute|].
  exact (Honce alice 0%nat eq_refl eq_refl eq_refl).
Defined.

(** The key is the string form: an id written as a string in the
    configuration takes the place of the same id written as an int. *)
Example quoted_chat_id_same_key :
  bridge_map (build_bridge_map (cfg_with [bridge_a; bridge_a_quoted]) loaded).2
    !! str_int 7 = Some bridge_a_quoted.
Proof. by vm_compute. Qed.

(** A negative [nick_max] cuts from the end, as a slice does. *)
Example negative_nick_max_cuts_tail :
  build_nick_from_telegram alice
    {| identity_ident := lit "tgrelay"; identity_host := lit "telegram.bridge";
       identity_suffix := lit "tg"; limits_nick_max := -3;
       limits_message_max := 5; cleanup_idle_timeout := 3600; bridges := [] |}
  = lit "alice_in_chains".
Proof. by vm_compute. Qed.

End Checks.

(** * The further properties on the sample data *)

Module MoreChecks.
Import Sample HostSample.

Lemma sanitize_keeps_valid_names_witness :
  lit "alice_in_chains" ≠ []
  ∧ sanitize_irc_name (lit "alice_in_chains") = lit "alice_in_chains".
Proof.
  assert (Hne : lit "alice_in_chains" ≠ []) by done.
  split; [done|]. apply sanitize_keeps_valid_names; [done|].
  vm_compute. repeat constructor.
Defined.

Lemma build_nick_alphabet_witness :
  ord "_" ∈ build_nick_from_telegram alice cfg
  ∧ (irc_name_char (ord "_") = true ∨ ord "_" = ord "/"
     ∨ ord "_" ∈ identity_suffix cfg).
Proof.
  assert (Hin : ord "_" ∈ build_nick_from_telegram alice cfg).
  { vm_compute. do 5 right. left. }
  split; [done|]. by apply (build_nick_alphabet alice cfg).
Defined.

Lemma build_nick_starts_with_base_witness :
  1 ≤ limits_nick_max cfg
  ∧ ∃ c rest,
      build_nick_from_telegram alice cfg = c :: rest
      ∧ head (sanitize_irc_name (nick_base alice)) = Some c
      ∧ irc_name_char c = true.
Proof.
  assert (Hmax : 1 ≤ limits_nick_max cfg) by (by vm_compute).
  split; [done|]. by apply build_nick_starts_with_base.
Defined.

Lemma inbound_text_truncated_witness :
  limits_message_max cfg = 5
  ∧ ∃ posted,
      posts (new_calls (world_with [] cfg)
               (on_telegram_message ticking accepting cfg
                  (update_from 8 alice "hello world") (world_with [] cfg)).2)
      = [(lit "#b", posted, 0%nat)]
      ∧ posted `prefix_of` lit "hello world"
      ∧ (5 < Z.of_nat (length (lit "hello world")) → Z.of_nat (length posted) = 5)
      ∧ (Z.of_nat (length (lit "hello world")) ≤ 5 → posted = lit "hello world").
Proof.
  split; [done|].
  apply (inbound_text_truncated ticking accepting cfg
           (update_from 8 alice "hello world")
           (message_from 8 alice "hello world") bridge_b alice
           (world_with [] cfg) 0%nat (lit "hello world"));
    try reflexivity; by vm_compute.
Defined.

Lemma ignored_updates_change_nothing_witness :
  bridge_map (world_with [] cfg) !! str_int 99 = None
  ∧ on_telegram_message ticking accepting cfg (update_from 99 alice "hello")
      (world_with [] cfg)
    = (Ok (), world_with [] cfg).
Proof.
  assert (Hnone : bridge_map (world_with [] cfg) !! str_int 99 = None)
    by (by vm_compute).
  split; [done|]. apply ignored_updates_change_nothing.
  right. exists (message_from 99 alice "hello"). split; [done|]. by right.
Defined.

Lemma senderless_message_raises_witness :
  let upd := {| message := Some {| text := Some (lit "hello"); chat_id := 7;
                                   from_user := None |} |} in
  on_telegram_message ticking accepting cfg upd (world_with [] cfg)
  = (Raise AttributeError, world_with [] cfg).
Proof.
  intros upd.
  by apply (senderless_message_raises ticking accepting cfg upd
              {| text := Some (lit "hello"); chat_id := 7; from_user := None |}
              bridge_a).
Defined.

Lemma local_message_only_sends_witness :
  on_irc_privmsg false cfg bob (lit "#a") (lit "hi") (world_with [] cfg)
  = (Raise AttributeError, world_with [] cfg)
  ∧ on_irc_privmsg false cfg bob (lit "#A") (lit "hi") (world_with [] cfg)
    = (Ok (), world_with [] cfg).
Proof.
  pose proof (local_message_only_sends false cfg bob (lit "#a") (lit "hi")
                (world_with [] cfg)) as Ha.
  pose proof (local_message_only_sends false cfg bob (lit "#A") (lit "hi")
                (world_with [] cfg)) as HA.
  cbv zeta in Ha, HA.
  destruct Ha as (_ & _ & _ & _ & _ & Hraise).
  destruct HA as (_ & _ & _ & _ & Hnone & _).
  split.
  - apply Hraise; [done | by vm_compute |].
    exists bridge_a. split; [left | done].
  - apply Hnone.
    intros b [->|[->|?%elem_of_nil]%elem_of_cons]%elem_of_cons; by vm_compute.
Defined.

Lemma new_identity_joins_every_channel_witness :
  let w' := (get_or_create_irc_user ticking accepting cfg alice
               (world_with [] cfg)).2 in
  joins (new_calls (world_with [] cfg) w')
  = [(0%nat, lit "#a"); (0%nat, lit "#b")]
  ∧ telegram_users w' = [(42, {| user := 0%nat; last_seen := 100 |})].
Proof.
  intros w'.
  pose proof (new_identity_joins_every_channel ticking accepting cfg alice
                (world_with [] cfg) 0%nat eq_refl eq_refl) as H.
  cbv zeta in H. destruct H as (_ & Husers & _ & Hjoins & _).
  split; [exact Hjoins | exact Husers].
Defined.

Lemma inbound_message_keeps_other_entries_witness :
  let w := world_with [(1, {| user := 10%nat; last_seen := 0 |})] cfg in
  Dict.get 1 (telegram_users
    (on_telegram_message ticking accepting cfg (update_from 7 alice "hello") w).2)
  = Some {| user := 10%nat; last_seen := 0 |}.
Proof.
  intros w.
  rewrite (inbound_message_keeps_other_entries ticking accepting cfg
             (update_from 7 alice "hello") w 1); [done|].
  intros u Hu. vm_compute in Hu. injection Hu as <-. by vm_compute.
Defined.

Lemma distinct_chat_ids_all_routed_witness :
  NoDup (telegram_chat_id <$> bridges cfg)
  ∧ bridge_map (build_bridge_map cfg loaded).2 !! str_int 8 = Some bridge_b.
Proof.
  assert (Hnd : NoDup (telegram_chat_id <$> bridges cfg)).
  { apply (bool_decide_unpack _). by vm_compute. }
  split; [done|].
  apply (distinct_chat_ids_all_routed cfg loaded); [|done| |done].
  - intros b [->|[->|?%elem_of_nil]%elem_of_cons]%elem_of_cons;
      [by exists 7 | by exists 8 | done].
  - right. left.
Defined.

Lemma relayed_author_survives_sweep_witness :
  let w1 := (on_telegram_message ticking accepting cfg
               (update_from 7 alice "hello") (world_with [] cfg)).2 in
  Dict.get 42 (telegram_users (cleanup_sweep ticking cfg w1).2)
  = Some {| user := 0%nat; last_seen := 101 |}.
Proof.
  intros w1.
  assert (Hwf : Dict.wf (telegram_users (world_with [] cfg)))
    by (apply Checks.wf_by_compute; by vm_compute).
  pose proof (relayed_author_survives_sweep ticking accepting cfg
                (update_from 7 alice "hello") alice (world_with [] cfg)
                Hwf eq_refl eq_refl) as H.
  cbv zeta in H. destruct H as (e & Hget & _ & Hkept); [by vm_compute|].
  vm_compute in Hget. injection Hget as <-. exact Hkept.
Defined.

Lemma evicted_author_is_created_again_witness :
  let w := world_with [(42, {| user := 5%nat; last_seen := 0 |})] cfg in
  let w1 := (cleanup_sweep late cfg w).2 in
  (5%nat, lit "Telegram idle timeout") ∈ quits (new_calls w w1)
  ∧ Dict.get 42 (telegram_users w1) = None
  ∧ (get_or_create_irc_user late accepting cfg alice w1).1 = Ok 1%nat.
Proof.
  intros w w1.
  assert (Hwf : Dict.wf (telegram_users w))
    by (apply Checks.wf_by_compute; by vm_compute).
  pose proof (evicted_author_is_created_again late accepting cfg alice w
                {| user := 5%nat; last_seen := 0 |} Hwf eq_refl) as H.
  cbv zeta in H. destruct H as (Hquit & Hgone & Hres & _); [by vm_compute|].
  split; [exact Hquit|]. split; [exact Hgone|]. exact Hres.
Defined.

Lemma message_after_teardown_witness :
  let w := world_with [(42, {| user := 5%nat; last_seen := 0 |})] cfg in
  let w1 := (teardown w).2 in
  (5%nat, lit "Telegram relay shutdown") ∈ quits (new_calls w w1)
  ∧ new_calls w1
      (on_telegram_message ticking accepting cfg (update_from 7 alice "hello") w1).2
    = [SendPrivmsg (lit "#a") (lit "hello") 5%nat].
Proof.
  intros w w1.
  pose proof (message_after_teardown_uses_departed_handle ticking accepting cfg
                (update_from 7 alice "hello") (message_from 7 alice "hello")
                bridge_a alice w {| user := 5%nat; last_seen := 0 |}
                eq_refl eq_refl eq_refl eq_refl eq_refl) as H.
  cbv zeta in H. destruct H as (Hquit & _ & Hcalls).
  split; [exact Hquit | exact Hcalls].
Defined.

Lemma sweep_then_teardown_witness :
  let w := world_with [(1, {| user := 10%nat; last_seen := 0 |});
                       (2, {| user := 11%nat; last_seen := 2 |})] cfg in
  quits (new_calls w (teardown (cleanup_sweep (λ _, 3601) cfg w).2).2)
  = [(10%nat, lit "Telegram idle timeout");
     (11%nat, lit "Telegram relay shutdown")].
Proof.
  intros w.
  assert (Hwf : Dict.wf (telegram_users w))
    by (apply Checks.wf_by_compute; by vm_compute).
  pose proof (sweep_then_teardown_departs_each_once (λ _, 3601) cfg w Hwf) as H.
  cbv zeta in H. destruct H as [Hquits _].
  rewrite Hquits. by vm_compute.
Defined.

Lemma cleanup_loop_witness :
  let w := world_with [(1, {| user := 10%nat; last_seen := 0 |});
                       (2, {| user := 11%nat; last_seen := 2 |})] cfg in
  telegram_users (loop late cfg 2 w).2
  = [(2, {| user := 11%nat; last_seen := 2 |})]
  ∧ clock_reads (loop late cfg 2 w).2 = 2%nat.
Proof.
  intros w.
  assert (Hwf : Dict.wf (telegram_users w))
    by (apply Checks.wf_by_compute; by vm_compute).
  pose proof (cleanup_loop_keeps_fresh_entries late cfg 2 w Hwf) as H.
  cbv zeta in H. destruct H as (Husers & _ & Hreads & _).
  split; [|exact Hreads]. rewrite Husers. by vm_compute.
Defined.

Lemma setup_disabled_is_inert_witness :
  host_calls (setup (Some (plugin false)) before_setup) = []
  ∧ telegram_cfg (setup (Some (plugin false)) before_setup) = None
  ∧ new_calls (world before_setup)
      (world (setup (Some (plugin false)) before_setup))
    = [LogInfo (lit "[telegram] plugin disabled")].
Proof.
  assert (Hoff : Some (plugin false) = None
                 ∨ ∃ pc, Some (plugin false) = Some pc ∧ enabled pc = false).
  { right. by exists (plugin false). }
  pose proof (setup_disabled_is_inert (Some (plugin false)) before_setup Hoff)
    as H.
  cbv zeta in H. destruct H as (Hcalls & Hcfg & _ & _ & _ & Hlog).
  split; [exact Hcalls|]. split; [exact Hcfg | exact Hlog].
Defined.

Lemma setup_enabled_starts_relay_witness :
  telegram_cfg (setup (Some (plugin true)) before_setup) = Some cfg
  ∧ 0 < cleanup_idle_timeout cfg
  ∧ StartThread CleanupThread
    ∈ drop (length (host_calls before_setup))
           (host_calls (setup (Some (plugin true)) before_setup)).
Proof.
  pose proof (setup_enabled_starts_relay (plugin true) before_setup eq_refl)
    as H.
  cbv zeta in H. destruct H as (Hcfg & _ & Hcleanup & _).
  split; [exact Hcfg|].
  assert (Hpos : 0 < cleanup_idle_timeout cfg) by (by vm_compute).
  split; [done|]. by apply Hcleanup.
Defined.

Lemma setup_twice_registers_twice_witness :
  host_calls (setup (Some (plugin true)) (setup (Some (plugin true)) before_setup))
  = [AddHook (lit "PRIVMSG"); StartThread BotThread; StartThread CleanupThread;
     AddHook (lit "PRIVMSG"); StartThread BotThread; StartThread CleanupThread].
Proof.
  pose proof (setup_twice_registers_twice (plugin true) before_setup eq_refl)
    as H.
  cbv zeta in H. destruct H as (Hcalls & _).
  rewrite Hcalls. by vm_compute.
Defined.

End MoreChecks.
